(** * Street navigation: the weighted graph and its two shortest-path searches

    A shallow embedding of [graph.py], [dijkstra.py], [astar.py] and
    [navigation.py].

    Numbers.  Python floats are read as exact numbers: weights, coordinates
    and finite costs are rationals ([Q]), [float('inf')] is the extra point
    [Inf] of [ext], and the value of [math.sqrt] is kept exact as a [surd]
    (a rational plus the square root of a rational), compared exactly.
    Rounding, NaN and overflow are outside the model.  The program computes
    in binary64, so a theorem about the numbers a search or
    [euclidean_distance] returns is stated either in a form that rounding
    does not disturb (an order between two costs, a sentinel, a path) or
    under one of the conditions of the section on the range of binary64
    below ([exact_weights], [same_place], [coords_in_range],
    [weights_in_range]), on which the program's arithmetic is exact or at
    least stays finite and raises nothing.

    Effects.  A [Graph] object is a pair of dictionaries that its methods
    read and write; every method and both searches run in the monad [M],
    which threads the graph and carries Python's [KeyError].  Loops take a
    fuel argument; running out of it is the outcome [OutOfFuel]. *)

From Stdlib Require Import QArith Qreals Reals Lra Lqa Psatz.
From stdpp Require Import gmap strings list fin_maps pretty.

Local Open Scope Q_scope.

Set Default Proof Using "Type".

(** ** Numbers *)

(** A float that may be [float('inf')]. *)
Inductive ext (A : Type) : Type :=
  | Fin (a : A)
  | Inf.
Arguments Fin {A} a.
Arguments Inf {A}.

(** [rat + sqrt rad]; a negative [rad] is never built (Python's [math.sqrt]
    would raise) and is read as [0], as [sqrt] on [R] does.  The root is
    exact, where [math.sqrt] rounds to the nearest binary64. *)
Record surd : Type := mkSurd { rat : Q; rad : Q }.

Definition math_sqrt (q : Q) : surd := mkSurd 0 q.
Definition surd_of_Q (q : Q) : surd := mkSurd q 0.
(** [q + s] for a rational [q] and a surd [s]. *)
Definition surd_add (q : Q) (s : surd) : surd := mkSurd (q + rat s) (rad s).

(** The order [<=] of Python numbers, one instance per number type. *)
Class Leb (A : Type) := leb : A → A → bool.
Definition ltb `{Leb A} (a b : A) : bool := negb (leb b a).
Definition eqb `{Leb A} (a b : A) : bool := leb a b && leb b a.

#[global] Instance Q_leb : Leb Q := Qle_bool.

Definition clamp (q : Q) : Q := if Qle_bool 0 q then q else 0.

(** [a + sqrt b <= c + sqrt d], decided by squaring twice. *)
Definition surd_leb (s1 s2 : surd) : bool :=
  let b := clamp (rad s1) in
  let d := clamp (rad s2) in
  let t := rat s2 - rat s1 in
  if Qle_bool 0 t then
    let k := b - t * t - d in
    Qle_bool k 0 || Qle_bool (k * k) (4 * t * t * d)
  else
    let m := d - t * t - b in
    Qle_bool 0 m && Qle_bool (4 * t * t * b) (m * m).

#[global] Instance surd_leb_inst : Leb surd := surd_leb.

Definition ext_leb `{Leb A} (a b : ext A) : bool :=
  match a, b with
  | _, Inf => true
  | Inf, Fin _ => false
  | Fin x, Fin y => leb x y
  end.

#[global] Instance ext_leb_inst `{Leb A} : Leb (ext A) := ext_leb.

Definition is_inf {A} (a : ext A) : bool :=
  match a with Inf => true | Fin _ => false end.

(** [a + w] where [a] may be infinite.  The sum is exact, where the [+] of
    binary64 rounds to the nearest float and gives an infinity past the
    largest one. *)
Definition ext_add (a : ext Q) (w : Q) : ext Q :=
  match a with Fin x => Fin (x + w) | Inf => Inf end.

(** [a + h] where [h] is a heuristic value. *)
Definition ext_add_surd (a : ext Q) (h : surd) : ext surd :=
  match a with Fin x => Fin (surd_add x h) | Inf => Inf end.

(** ** heapq on (priority, key) tuples

    The queue is the bag of its entries; [heappop] removes the least entry
    under Python's tuple order (priority first, then key).  The array layout
    of the binary heap is not modelled. *)

Section Heap.
Context {P : Type} `{Leb P}.

Definition entry : Type := P * string.

(** [(p1, k1) < (p2, k2)] on tuples. *)
Definition entry_ltb (e1 e2 : entry) : bool :=
  if eqb e1.1 e2.1 then String.ltb e1.2 e2.2 else ltb e1.1 e2.1.

Definition heappush (h : list entry) (e : entry) : list entry := h ++ [e].

(** The least entry of [x :: h] and the other entries. *)
Fixpoint extract_min (x : entry) (h : list entry) : entry * list entry :=
  match h with
  | [] => (x, [])
  | y :: h' =>
      let '(m, r) := extract_min y h' in
      if entry_ltb m x then (m, x :: r) else (x, y :: h')
  end.

Definition heappop (h : list entry) : option (entry * list entry) :=
  match h with
  | [] => None
  | x :: h' => Some (extract_min x h')
  end.
End Heap.

(** ** graph.py *)

Record Node : Type := mkNode
  { node_id : string; node_x : Q; node_y : Q; node_name : string }.

Record Edge : Type := mkEdge
  { from_node : string; to_node : string; weight : Q; edge_name : string }.

Record Graph : Type := mkGraph
  { nodes : gmap string Node; edges : gmap string (list Edge) }.

(** [Node.__init__]: [self.name = name or node_id]. *)
Definition Node_init (id : string) (x y : Q) (name : string) : Node :=
  mkNode id x y (if decide (name = EmptyString) then id else name).

Definition Graph_init : Graph := mkGraph ∅ ∅.

(** ** The monad of graph methods *)

Inductive exn : Type := KeyError.

Inductive res (A : Type) : Type :=
  | Ok (a : A)
  | Raise (e : exn)
  | OutOfFuel.
Arguments Ok {A} a.
Arguments Raise {A} e.
Arguments OutOfFuel {A}.

Definition M (A : Type) : Type := Graph → res A * Graph.

Definition ret {A} (a : A) : M A := λ g, (Ok a, g).
Definition bind {A B} (m : M A) (k : A → M B) : M B :=
  λ g, match m g with
       | (Ok a, g') => k a g'
       | (Raise e, g') => (Raise e, g')
       | (OutOfFuel, g') => (OutOfFuel, g')
       end.
Definition raise {A} (e : exn) : M A := λ g, (Raise e, g).
Definition out_of_fuel {A} : M A := λ g, (OutOfFuel, g).
Definition gets {A} (f : Graph → A) : M A := λ g, (Ok (f g), g).
Definition modify (f : Graph → Graph) : M unit := λ g, (Ok tt, f g).

Notation "x <- m ;; k" := (bind m (λ x, k))
  (at level 100, m at next level, right associativity).
Notation "m ;;; k" := (bind m (λ _, k))
  (at level 100, right associativity).

(** [d[k]] on a dictionary: [KeyError] when [k] is absent. *)
Definition getitem {V} (d : gmap string V) (k : string) : M V :=
  match d !! k with
  | Some v => ret v
  | None => raise KeyError
  end.

(** [for x in l: st = f st x]. *)
Fixpoint for_each {S X} (f : S → X → M S) (st : S) (l : list X) : M S :=
  match l with
  | [] => ret st
  | x :: l' => st' <- f st x ;; for_each f st' l'
  end.

Definition add_node (id : string) (x y : Q) (name : string) : M Node :=
  ns <- gets nodes ;;
  match ns !! id with
  | None =>
      let node := Node_init id x y name in
      modify (λ g, mkGraph (<[id := node]> (nodes g)) (edges g)) ;;;
      modify (λ g, mkGraph (nodes g) (<[id := []]> (edges g))) ;;;
      ret node
  | Some node => ret node
  end.

(** [self.edges[k].append(e)]. *)
Definition append_edge (k : string) (e : Edge) : M unit :=
  es <- gets edges ;;
  l <- getitem es k ;;
  modify (λ g, mkGraph (nodes g) (<[k := l ++ [e]]> (edges g))).

Definition add_edge (from to : string) (w : Q) (name : string)
    (bidirectional : bool) : M unit :=
  ns <- gets nodes ;;
  (if decide (from ∉ dom ns) then add_node from 0 0 "" ;;; ret tt else ret tt) ;;;
  ns <- gets nodes ;;
  (if decide (to ∉ dom ns) then add_node to 0 0 "" ;;; ret tt else ret tt) ;;;
  append_edge from (mkEdge from to w name) ;;;
  if bidirectional then append_edge to (mkEdge to from w name) else ret tt.

Definition get_neighbors (id : string) : M (list (string * Q)) :=
  es <- gets edges ;;
  match es !! id with
  | None => ret []
  | Some l => ret (map (λ e, (to_node e, weight e)) l)
  end.

Definition get_node (id : string) : M (option Node) :=
  ns <- gets nodes ;; ret (ns !! id).

(** The square [**] of a float raises [OverflowError] when the result
    leaves the range of binary64; that exit is not modelled, and is ruled
    out by [coords_in_range] where a theorem needs the call to return. *)
Definition euclidean_distance (id1 id2 : string) : M surd :=
  ns <- gets nodes ;;
  match ns !! id1, ns !! id2 with
  | Some n1, Some n2 =>
      ret (math_sqrt ((node_x n1 - node_x n2) ^ 2 + (node_y n1 - node_y n2) ^ 2))
  | _, _ => ret (surd_of_Q 0)
  end.

(** ** Control flow of the search loops *)

Inductive ctl (S : Type) : Type :=
  | Continue (st : S)
  | Break (st : S).
Arguments Continue {S} st.
Arguments Break {S} st.

(** [while current is not None: path.append(current); current = previous[current]]. *)
Fixpoint reconstruct (fuel : nat) (previous : gmap string (option string))
    (current : option string) (path : list string) : M (list string) :=
  match current with
  | None => ret path
  | Some c =>
      match fuel with
      | O => out_of_fuel
      | S fuel' =>
          p <- getitem previous c ;;
          reconstruct fuel' previous p (path ++ [c])
      end
  end.

Definition search_result : Type := option (list string) * ext Q.

(** ** dijkstra.py *)

Record dstate : Type := mkD
  { d_pq : list (Q * string);
    distances : gmap string (ext Q);
    d_previous : gmap string (option string);
    d_visited : gset string }.

Definition dijkstra_relax (current_distance : Q) (current_node : string)
    (st : dstate) (nw : string * Q) : M dstate :=
  let '(neighbor, w) := nw in
  let distance := current_distance + w in
  dn <- getitem (distances st) neighbor ;;
  if ltb (Fin distance) dn then
    ret (mkD (heappush (d_pq st) (distance, neighbor))
             (<[neighbor := Fin distance]> (distances st))
             (<[neighbor := Some current_node]> (d_previous st))
             (d_visited st))
  else ret st.

(** One turn of [while pq:]. *)
Definition dijkstra_iter (end_ : string) (st : dstate) : M (ctl dstate) :=
  match heappop (d_pq st) with
  | None => ret (Break st)
  | Some ((current_distance, current_node), pq') =>
      let st1 := mkD pq' (distances st) (d_previous st) (d_visited st) in
      if decide (current_node ∈ d_visited st1) then ret (Continue st1) else
      let st2 := mkD pq' (distances st) (d_previous st)
                     ({[current_node]} ∪ d_visited st) in
      if decide (current_node = end_) then ret (Break st2) else
      dc <- getitem (distances st2) current_node ;;
      if ltb dc (Fin current_distance) then ret (Continue st2) else
      nbrs <- get_neighbors current_node ;;
      st3 <- for_each (dijkstra_relax current_distance current_node) st2 nbrs ;;
      ret (Continue st3)
  end.

Fixpoint dijkstra_loop (fuel : nat) (end_ : string) (st : dstate) : M dstate :=
  match fuel with
  | O => out_of_fuel
  | S fuel' =>
      c <- dijkstra_iter end_ st ;;
      match c with
      | Continue st' => dijkstra_loop fuel' end_ st'
      | Break st' => ret st'
      end
  end.

Definition dijkstra_init (ns : gmap string Node) (start : string) : dstate :=
  mkD [(0, start)]
      (<[start := Fin 0]> ((λ _, Inf) <$> ns))
      ((λ _, None) <$> ns)
      ∅.

(** [fuel] bounds the turns of the main loop and, apart from them, the
    steps of the walk back along the predecessors. *)
Definition dijkstra (fuel : nat) (start end_ : string) : M search_result :=
  ns <- gets nodes ;;
  if decide (start ∉ dom ns ∨ end_ ∉ dom ns) then ret (None, Inf) else
  st <- dijkstra_loop fuel end_ (dijkstra_init ns start) ;;
  de <- getitem (distances st) end_ ;;
  if is_inf de then ret (None, Inf) else
  path <- reconstruct fuel (d_previous st) (Some end_) [] ;;
  ret (Some (reverse path), de).

(** ** astar.py *)

Definition heuristic (end_ : string) (id : string) : M surd :=
  euclidean_distance id end_.

Record astate : Type := mkA
  { a_pq : list (ext surd * string);
    g_score : gmap string (ext Q);
    f_score : gmap string (ext surd);
    a_previous : gmap string (option string);
    a_visited : gset string }.

Definition astar_relax (end_ : string) (current_node : string)
    (st : astate) (nw : string * Q) : M astate :=
  let '(neighbor, w) := nw in
  if decide (neighbor ∈ a_visited st) then ret st else
  gc <- getitem (g_score st) current_node ;;
  let tentative_g_score := ext_add gc w in
  gn <- getitem (g_score st) neighbor ;;
  if ltb tentative_g_score gn then
    h <- heuristic end_ neighbor ;;
    let f_score' := <[neighbor := ext_add_surd tentative_g_score h]> (f_score st) in
    fn <- getitem f_score' neighbor ;;
    ret (mkA (heappush (a_pq st) (fn, neighbor))
             (<[neighbor := tentative_g_score]> (g_score st))
             f_score'
             (<[neighbor := Some current_node]> (a_previous st))
             (a_visited st))
  else ret st.

Definition astar_iter (end_ : string) (st : astate) : M (ctl astate) :=
  match heappop (a_pq st) with
  | None => ret (Break st)
  | Some ((current_f, current_node), pq') =>
      let st1 := mkA pq' (g_score st) (f_score st) (a_previous st) (a_visited st) in
      if decide (current_node ∈ a_visited st1) then ret (Continue st1) else
      let st2 := mkA pq' (g_score st) (f_score st) (a_previous st)
                     ({[current_node]} ∪ a_visited st) in
      if decide (current_node = end_) then ret (Break st2) else
      nbrs <- get_neighbors current_node ;;
      st3 <- for_each (astar_relax end_ current_node) st2 nbrs ;;
      ret (Continue st3)
  end.

Fixpoint astar_loop (fuel : nat) (end_ : string) (st : astate) : M astate :=
  match fuel with
  | O => out_of_fuel
  | S fuel' =>
      c <- astar_iter end_ st ;;
      match c with
      | Continue st' => astar_loop fuel' end_ st'
      | Break st' => ret st'
      end
  end.

Definition astar_init (ns : gmap string Node) (start : string) (h0 h1 : surd) : astate :=
  mkA [(Fin h0, start)]
      (<[start := Fin 0]> ((λ _, Inf) <$> ns))
      (<[start := Fin h1]> ((λ _, Inf) <$> ns))
      ((λ _, None) <$> ns)
      ∅.

(** [fuel] as in [dijkstra]; [heuristic(start)] is called twice, for the
    queue and for [f_score]. *)
Definition astar (fuel : nat) (start end_ : string) : M search_result :=
  ns <- gets nodes ;;
  if decide (start ∉ dom ns ∨ end_ ∉ dom ns) then ret (None, Inf) else
  h0 <- heuristic end_ start ;;
  h1 <- heuristic end_ start ;;
  st <- astar_loop fuel end_ (astar_init ns start h0 h1) ;;
  ge <- getitem (g_score st) end_ ;;
  if is_inf ge then ret (None, Inf) else
  path <- reconstruct fuel (a_previous st) (Some end_) [] ;;
  ret (Some (reverse path), ge).

(** ** Scenario graphs *)

(** The diamond of the unit tests. *)
Definition diamond_build : M unit :=
  add_node "A" 0 0 "A" ;;;
  add_node "B" 1 1 "B" ;;;
  add_node "C" 1 (-1) "C" ;;;
  add_node "D" 2 0 "D" ;;;
  add_edge "A" "B" 1 "" true ;;;
  add_edge "A" "C" 2 "" true ;;;
  add_edge "B" "D" 3 "" true ;;;
  add_edge "C" "D" 1 "" true.

Definition diamond : Graph := (diamond_build Graph_init).2.





(** A chain with one street of negative weight. *)
Definition downhill_build : M unit :=
  add_edge "A" "B" (-1) "" true ;;;
  add_edge "B" "C" 1 "" true.

Definition downhill : Graph := (downhill_build Graph_init).2.

(** The Home-Store-Park network of the navigator tests. *)
Definition town_build : M unit :=
  add_node "Home" 0 0 "Home" ;;;
  add_node "Store" 1 1 "Store" ;;;
  add_node "Park" 2 0 "Park" ;;;
  add_edge "Home" "Store" (3 # 2) "Main St" true ;;;
  add_edge "Store" "Park" 2 "Oak Ave" true ;;;
  add_edge "Home" "Park" 4 "Long Rd" true.

Definition town : Graph := (town_build Graph_init).2.



(** ** Vocabulary of the specification *)

(** The edges out of [u], as [get_neighbors] lists them. *)
Definition neighbors (g : Graph) (u : string) : list (string * Q) :=
  match edges g !! u with
  | None => []
  | Some l => map (λ e, (to_node e, weight e)) l
  end.

(** A stored edge from [u] to [v] of weight [w]. *)
Definition edge (g : Graph) (u v : string) (w : Q) : Prop :=
  (v, w) ∈ neighbors g u.

(** A sequence of edges from [s], with the sum of its weights. *)
Inductive walk (g : Graph) (s : string) : string → Q → Prop :=
  | walk_nil : walk g s s 0
  | walk_snoc u v c w : walk g s u c → edge g u v w → walk g s v (c + w).



(** The value [euclidean_distance] returns on [g]. *)
Definition distance_of (g : Graph) (u v : string) : surd :=
  match (euclidean_distance u v g).1 with
  | Ok s => s
  | _ => surd_of_Q 0
  end.

(** The graphs that [add_node] and [add_edge] build from [Graph()]. *)
Inductive constructed : Graph → Prop :=
  | constructed_init : constructed Graph_init
  | constructed_add_node g id x y name :
      constructed g → constructed (add_node id x y name g).2
  | constructed_add_edge g from to w name bidirectional :
      constructed g → constructed (add_edge from to w name bidirectional g).2.

(** Consecutive keys of [l] are joined by stored edges. *)
Definition edges_along (g : Graph) (l : list string) : Prop :=
  ∀ i u v, l !! i = Some u → l !! S i = Some v → ∃ w, edge g u v w.

(** [l] lists the predecessors met from [n] until a key without one. *)
Inductive chain (pv : gmap string (option string)) : string → list string → Prop :=
  | chain_nil n : pv !! n = Some None → chain pv n []
  | chain_cons n c l : pv !! n = Some (Some c) → chain pv c l → chain pv n (c :: l).

(** Number of stored edges and the fuel that always suffices. *)
Definition out_degree (g : Graph) (u : string) : nat := length (neighbors g u).
Definition edge_count (g : Graph) : nat :=
  sum_list_with (out_degree g) (elements (dom (edges g))).

(** Number orders as propositions. *)
Definition sval (s : surd) : R := (Q2R (rat s) + sqrt (Q2R (rad s)))%R.

Definition ext_le (a b : ext Q) : Prop :=
  match a, b with
  | _, Inf => True
  | Inf, Fin _ => False
  | Fin x, Fin y => x <= y
  end.


(** ** The search both programs refine

    What the two loops share, on the part of the state they share: the
    queue as (cost, key) pairs, the cost map, the predecessor map and the
    settled set.  [h] is the potential added to a cost to order the queue
    (zero for dijkstra) and [skipv] says whether settled neighbours are
    skipped. *)

Record view : Type := mkV
  { q : list (Q * string);
    cost : gmap string (ext Q);
    prev : gmap string (option string);
    vis : gset string }.

Definition dview (st : dstate) : view :=
  mkV (d_pq st) (distances st) (d_previous st) (d_visited st).

Definition entry_cost (e : ext surd * string) : Q * string :=
  (match e.1 with Fin s => rat s | Inf => 0 end, e.2).

Definition aview (st : astate) : view :=
  mkV (map entry_cost (a_pq st)) (g_score st) (a_previous st) (a_visited st).

Definition ctl_map {S T} (f : S → T) (c : ctl S) : ctl T :=
  match c with Continue st => Continue (f st) | Break st => Break (f st) end.

Definition prio (h : string → R) (e : Q * string) : R := (Q2R e.1 + h e.2)%R.

Definition is_pop (h : string → R) (l : list (Q * string)) (e : Q * string)
    (l' : list (Q * string)) : Prop :=
  l ≡ₚ e :: l' ∧ ∀ e', e' ∈ l → (prio h e <= prio h e')%R.

Inductive relax1 (skipv : bool) (b : Q) (c : string) (x : string) (w : Q)
    (v : view) : view → Prop :=
  | relax_keep :
      (skipv = true ∧ x ∈ vis v) ∨
      (∃ dx, cost v !! x = Some dx ∧ ext_le dx (Fin (b + w))) →
      relax1 skipv b c x w v v
  | relax_update t p dx :
      t == b + w → p == t →
      cost v !! x = Some dx → ¬ ext_le dx (Fin t) →
      (skipv = true → x ∉ vis v) →
      relax1 skipv b c x w v
        (mkV (q v ++ [(p, x)]) (<[x := Fin t]> (cost v))
             (<[x := Some c]> (prev v)) (vis v)).

Inductive relax_all (skipv : bool) (b : Q) (c : string) :
    list (string * Q) → view → view → Prop :=
  | relax_all_nil v : relax_all skipv b c [] v v
  | relax_all_cons x w l v v1 v2 :
      relax1 skipv b c x w v v1 → relax_all skipv b c l v1 v2 →
      relax_all skipv b c ((x, w) :: l) v v2.

Inductive astep (g : Graph) (end_ : string) (h : string → R) (skipv : bool)
    (v : view) : ctl view → Prop :=
  | astep_empty : q v = [] → astep g end_ h skipv v (Break v)
  | astep_skip d n q' :
      is_pop h (q v) (d, n) q' → n ∈ vis v →
      astep g end_ h skipv v (Continue (mkV q' (cost v) (prev v) (vis v)))
  | astep_goal d n q' :
      is_pop h (q v) (d, n) q' → n ∉ vis v → n = end_ →
      astep g end_ h skipv v (Break (mkV q' (cost v) (prev v) ({[n]} ∪ vis v)))
  | astep_expand d n q' b bn v' :
      is_pop h (q v) (d, n) q' → n ∉ vis v → n ≠ end_ →
      cost v !! n = Some (Fin bn) → b == bn →
      relax_all skipv b n (neighbors g n)
        (mkV q' (cost v) (prev v) ({[n]} ∪ vis v)) v' →
      astep g end_ h skipv v (Continue v').

(** [arun v vf]: the loop started in [v] ends in [vf]. *)
Inductive arun (g : Graph) (end_ : string) (h : string → R) (skipv : bool) :
    view → view → Prop :=
  | arun_break v vf : astep g end_ h skipv v (Break vf) → arun g end_ h skipv v vf
  | arun_continue v v1 vf :
      astep g end_ h skipv v (Continue v1) → arun g end_ h skipv v1 vf →
      arun g end_ h skipv v vf.


(** What holds of every state of either loop, whatever the weights. *)
Record inv0 (g : Graph) (start end_ : string) (v : view) : Prop := mkInv0
  { i_dom_cost : dom (cost v) = dom (nodes g);
    i_dom_prev : dom (prev v) = dom (nodes g);
    i_end : end_ ∉ vis v;
    i_start : ∃ d0, cost v !! start = Some (Fin d0) ∧ d0 <= 0;
    i_q_ge : ∀ d n, (d, n) ∈ q v → ∃ dn, cost v !! n = Some (Fin dn) ∧ dn <= d;
    i_frontier : ∀ n dn, n ∉ vis v → cost v !! n = Some (Fin dn) →
                 ∃ d, (d, n) ∈ q v ∧ d == dn;
    i_sound : ∀ n dn, cost v !! n = Some (Fin dn) →
              ∃ c, walk g start n c ∧ c == dn;
    i_vis_fin : ∀ n, n ∈ vis v → ∃ dn, cost v !! n = Some (Fin dn);
    i_prev_edge : ∀ n c, prev v !! n = Some (Some c) →
                  (∃ w, edge g c n w) ∧ c ∈ vis v ∧
                  ∃ dn, cost v !! n = Some (Fin dn);
    i_fin_prev : ∀ n dn, cost v !! n = Some (Fin dn) →
                 n = start ∨ ∃ c, prev v !! n = Some (Some c) }.

(** Every edge out of a key of [S] leads to a reached key. *)
Definition expanded_on (g : Graph) (S : gset string) (v : view) : Prop :=
  ∀ n x w, n ∈ S → edge g n x w → ∃ dx, cost v !! x = Some (Fin dx).

(** Predecessor chains of reached keys run through settled keys to a key
    without predecessor, and never repeat. *)
Definition inv_chain (v : view) : Prop :=
  ∀ n dn, cost v !! n = Some (Fin dn) →
  ∃ l, chain (prev v) n l ∧ NoDup (n :: l) ∧ ∀ m, m ∈ l → m ∈ vis v.

(** What a consistent potential adds: settled keys lie below the queue,
    and no edge out of a key of [S] can improve its target. *)
Definition mono (h : string → R) (v : view) : Prop :=
  ∀ m d x, m ∈ vis v → (d, x) ∈ q v →
  ∃ dm, cost v !! m = Some (Fin dm) ∧ (Q2R dm + h m <= Q2R d + h x)%R.

Definition closed_on (g : Graph) (S : gset string) (v : view) : Prop :=
  ∀ n x w dn, n ∈ S → edge g n x w → cost v !! n = Some (Fin dn) →
  ∃ dx, cost v !! x = Some (Fin dx) ∧ dx <= dn + w.


(** Queue entries still to pop plus edges still to relax. *)
Definition measure (g : Graph) (v : view) : nat :=
  (length (q v) +
   sum_list_with (out_degree g) (elements (dom (edges g) ∖ vis v)))%nat.

(** The potential of astar: the straight-line distance to the goal. *)
Definition hR (g : Graph) (end_ : string) (n : string) : R :=
  sval (distance_of g n end_).

(** Every queue entry of astar is a finite cost plus the potential of its key. *)
Definition a_shape (g : Graph) (end_ : string) (st : astate) : Prop :=
  ∀ f n, (f, n) ∈ a_pq st →
  ∃ s, f = Fin s ∧ sqrt (Q2R (rad s)) = hR g end_ n.

(** A computation that leaves the graph as it found it. *)
Definition readonly {A} (m : M A) : Prop := ∀ g, (m g).2 = g.

(** Shape of the graphs [add_node] and [add_edge] build: the two
    dictionaries have the same keys and every edge leads to a node. *)
Record wf (g : Graph) : Prop := mkWf
  { wf_dom : dom (edges g) = dom (nodes g);
    wf_dest : ∀ u l e, edges g !! u = Some l → e ∈ l →
              to_node e ∈ dom (nodes g) }.

Definition ctl_state {S} (c : ctl S) : S :=
  match c with Continue st => st | Break st => st end.



(** The states met at the top of a turn, from the first. *)
Inductive d_reach (g : Graph) (end_ : string) (st0 : dstate) : dstate → Prop :=
  | d_reach_init : d_reach g end_ st0 st0
  | d_reach_turn st st' g' :
      d_reach g end_ st0 st →
      dijkstra_iter end_ st g = (Ok (Continue st'), g') →
      d_reach g end_ st0 st'.

Inductive a_reach (g : Graph) (end_ : string) (st0 : astate) : astate → Prop :=
  | a_reach_init : a_reach g end_ st0 st0
  | a_reach_turn st st' g' :
      a_reach g end_ st0 st →
      astar_iter end_ st g = (Ok (Continue st'), g') →
      a_reach g end_ st0 st'.

(** The part of the invariant that every turn needs. *)
Definition inv_basic (g : Graph) (start end_ : string) (v : view) : Prop :=
  inv0 g start end_ v ∧ expanded_on g (vis v) v.

(** The part a consistent potential adds. *)
Definition inv_opt (g : Graph) (h : string → R) (v : view) : Prop :=
  mono h v ∧ closed_on g (vis v) v.

(** The potential of dijkstra. *)
Definition hzero : string → R := λ _, 0%R.

(** The lines after the loop, which the two programs share word for word:
    the test of the goal's cost and the walk back along the predecessors. *)
Definition finish (fuel : nat) (cm : gmap string (ext Q))
    (pv : gmap string (option string)) (end_ : string) : M search_result :=
  de <- getitem cm end_ ;;
  if is_inf de then ret (None, Inf) else
  path <- reconstruct fuel pv (Some end_) [] ;;
  ret (Some (reverse path), de).






(** ** The range of binary64

    The searches add weights with the [+] of binary64, and
    [euclidean_distance] squares differences of coordinates with [**],
    which raises [OverflowError] when the square leaves the range of
    binary64.  The conditions below mark out graphs on which these
    operations are exact, or at least stay finite. *)















(** ** graph.py: equality, hashing and printing *)

(** [Node.__eq__] on another [Node]: only the ids are compared (an object
    that is not a [Node] is never equal). *)
Definition Node_eq (self other : Node) : bool :=
  bool_decide (node_id self = node_id other).

Section Hash.
(** Python's [hash] on strings. *)
Variable hash : string → Z.

(** [Node.__hash__]. *)
Definition Node_hash (self : Node) : Z := hash (node_id self).
End Hash.

(** [Graph.__repr__]; [pretty] writes a number in decimal, as the f-string
    does for [len(self.nodes)] and for the sum of the lengths of the edge
    lists. *)
Definition Graph_repr (g : Graph) : string :=
  "Graph(nodes=" +:+ pretty (size (nodes g)) +:+ ", edges="
  +:+ pretty (sum_list_with length (map_to_list (edges g)).*2) +:+ ")".

(** ** navigation.py

    A [Navigator] keeps the graph object it is given, so its methods run on
    the graph that the monad threads.  Besides [KeyError] they can raise
    [AttributeError], when [.name] is read on the [None] that [get_node]
    returns for an unknown key; [N] is the monad [M] with that exception
    added. *)

Inductive nav_exn : Type :=
  | GraphError (e : exn)
  | AttributeError.

Inductive nres (A : Type) : Type :=
  | NOk (a : A)
  | NRaise (e : nav_exn)
  | NOutOfFuel.
Arguments NOk {A} a.
Arguments NRaise {A} e.
Arguments NOutOfFuel {A}.

Definition N (A : Type) : Type := Graph → nres A * Graph.

#[global] Instance N_ret : MRet N := λ A a g, (NOk a, g).
#[global] Instance N_bind : MBind N := λ A B k m g,
  match m g with
  | (NOk a, g') => k a g'
  | (NRaise e, g') => (NRaise e, g')
  | (NOutOfFuel, g') => (NOutOfFuel, g')
  end.

Definition nraise {A} (e : nav_exn) : N A := λ g, (NRaise e, g).

(** A graph method or a search, run by the navigator. *)
Definition lift {A} (m : M A) : N A := λ g,
  match m g with
  | (Ok a, g') => (NOk a, g')
  | (Raise e, g') => (NRaise (GraphError e), g')
  | (OutOfFuel, g') => (NOutOfFuel, g')
  end.

(** [n.name] for the [n] that [get_node] returned. *)
Definition name_of (n : option Node) : N string :=
  match n with
  | Some n => mret (node_name n)
  | None => nraise AttributeError
  end.

(** [for e in l: if e.to_node == target: edge = e; break]. *)
Fixpoint find_edge (target : string) (l : list Edge) : option Edge :=
  match l with
  | [] => None
  | e :: l' => if decide (to_node e = target) then Some e else find_edge target l'
  end.

Section Navigator.
(** The text of [f"{w:.1f}"] for a weight [w]; how Python rounds and prints
    a float is not modelled. *)
Variable format_1f : Q → string.

Definition find_path_dijkstra (fuel : nat) (start end_ : string) : N search_result :=
  lift (dijkstra fuel start end_).

Definition find_path_astar (fuel : nat) (start end_ : string) : N search_result :=
  lift (astar fuel start end_).

(** [for i in range(len(path) - 1)], on the keys from [path[i]] on. *)
Fixpoint route_steps (path : list string) (directions : list string) : N (list string) :=
  match path with
  | [] => mret directions
  | cur :: rest =>
      match rest with
      | [] => mret directions
      | nxt :: _ =>
          current ← lift (get_node cur);
          next_node ← lift (get_node nxt);
          es ← lift (gets edges);
          l ← lift (getitem es cur);
          line ← match find_edge nxt l with
                 | Some e =>
                     let street_name :=
                       if decide (edge_name e = "") then "the street" else edge_name e in
                     nm ← name_of next_node;
                     mret ("Go to " +:+ nm +:+ " via " +:+ street_name +:+ " ("
                           +:+ format_1f (weight e) +:+ " units)")
                 | None =>
                     nm ← name_of next_node;
                     mret ("Go to " +:+ nm)
                 end;
          route_steps rest (directions ++ [line])
      end
  end.

(** [path[-1]] is read on a list that is not empty, so the default of
    [List.last] is never used. *)
Definition get_route_description (path : option (list string)) : N (list string) :=
  match path with
  | None | Some [] => mret ["No route found"]
  | Some [k] =>
      n ← lift (get_node k);
      nm ← name_of n;
      mret ["You are already at " +:+ nm]
  | Some ((k :: _) as p) =>
      n ← lift (get_node k);
      nm ← name_of n;
      directions ← route_steps p ["Start at " +:+ nm];
      n' ← lift (get_node (List.last p k));
      nm' ← name_of n';
      mret (directions ++ ["Arrive at " +:+ nm'])
  end.
End Navigator.

(** A graph put together by hand: the node A has no edge list. *)
Definition bare : Graph :=
  mkGraph {["A" := Node_init "A" 0 0 "A"]} ∅.

(** ** Vocabulary of the further properties *)

(** The two dictionaries of the graph have the same keys. *)
Definition same_keys (g : Graph) : Prop := dom (edges g) = dom (nodes g).

(** The edges filed under [u], none for a key without edge list. *)
Definition out_edges (g : Graph) (u : string) : list Edge :=
  default [] (edges g !! u).

(** A node without edge list, which only a graph put together by hand has. *)
Definition lacks_edge_list (g : Graph) (k : string) : Prop :=
  k ∈ dom (nodes g) ∧ k ∉ dom (edges g).

(** [g'] holds every node of [g] as it is in [g], and every edge list of
    [g] as the beginning of its own. *)
Definition grows (g g' : Graph) : Prop :=
  nodes g ⊆ nodes g' ∧ ∀ k, out_edges g k `prefix_of` out_edges g' k.

(** Every record sits under its own key: a node under its id, with a name
    that is empty only if the id is, and an edge under its [from_node]. *)
Definition filed (g : Graph) : Prop :=
  (∀ k n, nodes g !! k = Some n →
     node_id n = k ∧ (node_name n = "" → k = "")) ∧
  (∀ u l ed, edges g !! u = Some l → ed ∈ l → from_node ed = u).




(** The display name of the node [k], empty for an unknown key. *)
Definition name_in (g : Graph) (k : string) : string :=
  match nodes g !! k with Some n => node_name n | None => "" end.

(** The line of a route description for the step from [u] to [v]. *)
Definition leg (format_1f : Q → string) (g : Graph) (u v : string) : string :=
  match find_edge v (out_edges g u) with
  | Some e =>
      "Go to " +:+ name_in g v +:+ " via "
      +:+ (if decide (edge_name e = "") then "the street" else edge_name e)
      +:+ " (" +:+ format_1f (weight e) +:+ " units)"
  | None => "Go to " +:+ name_in g v
  end.

Fixpoint legs (format_1f : Q → string) (g : Graph) (path : list string) : list string :=
  match path with
  | [] => []
  | u :: rest =>
      match rest with
      | [] => []
      | v :: _ => leg format_1f g u v :: legs format_1f g rest
      end
  end.

(** Every key of the path is a node. *)
Definition known (g : Graph) (path : list string) : Prop :=
  Forall (λ k, k ∈ dom (nodes g)) path.

(** * Facts *)

(** ** Real arithmetic behind the exact comparison of surds *)

Section RealFacts.
Local Open Scope R_scope.

Lemma sq_le_elim (a b : R) : 0 <= b → a * a <= b * b → a <= b.
Proof. intros; nra. Qed.

Lemma sq_le_intro (a b : R) : 0 <= a → a <= b → a * a <= b * b.
Proof. intros; nra. Qed.

Lemma surd_case_pos (B D t : R) :
  0 <= B → 0 <= D → 0 <= t →
  (B * B - t * t - D * D <= 0 ∨
   (B * B - t * t - D * D) * (B * B - t * t - D * D) <= 4 * t * t * (D * D))
  ↔ B <= t + D.
Proof.
  intros HB HD Ht. split.
  - intros [Hk | Hk].
    + apply sq_le_elim; nra.
    + destruct (Rle_dec (B * B - t * t - D * D) 0) as [Hle | Hgt].
      * apply sq_le_elim; nra.
      * apply Rnot_le_lt in Hgt.
        assert (B * B - t * t - D * D <= 2 * t * D).
        { apply sq_le_elim; nra. }
        apply sq_le_elim; nra.
  - intros Hle.
    destruct (Rle_dec (B * B - t * t - D * D) 0) as [Hk | Hk].
    + left; exact Hk.
    + right. apply Rnot_le_lt in Hk.
      assert (B * B <= (t + D) * (t + D)) by (apply sq_le_intro; nra).
      assert (B * B - t * t - D * D <= 2 * t * D) by nra.
      replace (4 * t * t * (D * D)) with ((2 * t * D) * (2 * t * D)) by ring.
      apply sq_le_intro; nra.
Qed.

Lemma surd_case_neg (B D t : R) :
  0 <= B → 0 <= D → t < 0 →
  (0 <= D * D - t * t - B * B ∧
   4 * t * t * (B * B) <= (D * D - t * t - B * B) * (D * D - t * t - B * B))
  ↔ B <= t + D.
Proof.
  intros HB HD Ht. split.
  - intros [Hm Hk].
    assert (2 * (- t) * B <= D * D - t * t - B * B).
    { apply sq_le_elim; nra. }
    assert (B - t <= D) by (apply sq_le_elim; nra).
    lra.
  - intros Hle.
    assert ((B - t) * (B - t) <= D * D) by (apply sq_le_intro; nra).
    split; [nra |].
    replace (4 * t * t * (B * B)) with ((2 * (- t) * B) * (2 * (- t) * B)) by ring.
    apply sq_le_intro; nra.
Qed.

Lemma sqrt_clamp (x : Q) :
  sqrt (Q2R (clamp x)) = sqrt (Q2R x) ∧ 0 <= Q2R (clamp x).
Proof.
  unfold clamp. destruct (Qle_bool 0 x) eqn:E.
  - apply Qle_bool_iff, Qle_Rle in E. rewrite RMicromega.Q2R_0 in E. auto.
  - assert (Hlt : (x < 0)%Q).
    { apply Qnot_le_lt. intros Hle. apply Qle_bool_iff in Hle. congruence. }
    apply Qlt_Rlt in Hlt. rewrite RMicromega.Q2R_0 in *.
    split; [| lra].
    rewrite sqrt_0. symmetry. apply sqrt_neg_0. lra.
Qed.

Lemma Qle_bool_R (x y : Q) : Qle_bool x y = true ↔ Q2R x <= Q2R y.
Proof.
  rewrite Qle_bool_iff. split; [apply Qle_Rle | apply Rle_Qle].
Qed.

Lemma surd_leb_sval (s1 s2 : surd) : surd_leb s1 s2 = true ↔ sval s1 <= sval s2.
Proof.
  unfold surd_leb, sval.
  destruct (sqrt_clamp (rad s1)) as [E1 P1], (sqrt_clamp (rad s2)) as [E2 P2].
  rewrite <- E1, <- E2.
  set (b := clamp (rad s1)) in *. set (d := clamp (rad s2)) in *.
  set (B := sqrt (Q2R b)). set (D := sqrt (Q2R d)).
  assert (HB : 0 <= B) by apply sqrt_pos.
  assert (HD : 0 <= D) by apply sqrt_pos.
  assert (HBB : Q2R b = B * B) by (symmetry; apply sqrt_sqrt; exact P1).
  assert (HDD : Q2R d = D * D) by (symmetry; apply sqrt_sqrt; exact P2).
  clearbody B D.
  set (t := (rat s2 - rat s1)%Q).
  assert (Ht : Q2R t = Q2R (rat s2) - Q2R (rat s1)) by (unfold t; apply Q2R_minus).
  cbv zeta.
  destruct (Qle_bool 0 t) eqn:Et.
  - apply Qle_bool_R in Et. rewrite RMicromega.Q2R_0 in Et.
    rewrite orb_true_iff, !Qle_bool_R.
    rewrite !Q2R_mult, !Q2R_minus, !Q2R_mult, RMicromega.Q2R_0, HBB, HDD.
    replace (Q2R 4) with 4 by (unfold Q2R; simpl; lra).
    rewrite (surd_case_pos B D (Q2R t)) by assumption. lra.
  - assert (Hlt : Q2R t < 0).
    { apply Rnot_le_lt. intros Hle. rewrite <- RMicromega.Q2R_0 in Hle.
      apply Qle_bool_R in Hle. congruence. }
    rewrite andb_true_iff, !Qle_bool_R.
    rewrite !Q2R_mult, !Q2R_minus, !Q2R_mult, RMicromega.Q2R_0, HBB, HDD.
    replace (Q2R 4) with 4 by (unfold Q2R; simpl; lra).
    rewrite (surd_case_neg B D (Q2R t)) by assumption. lra.
Qed.

End RealFacts.

(** ** The orders of the number types *)

Lemma Q_leb_le (a b : Q) : leb a b = true ↔ a <= b.
Proof. apply Qle_bool_iff. Qed.

Lemma Q_ltb_lt (a b : Q) : ltb a b = true ↔ a < b.
Proof.
  unfold ltb. rewrite negb_true_iff. split.
  - intros E. apply Qnot_le_lt. intros Hle. apply Q_leb_le in Hle. congruence.
  - intros Hlt. destruct (leb b a) eqn:E; [| reflexivity].
    apply Q_leb_le in E. lra.
Qed.

Lemma ext_leb_le (a b : ext Q) : leb a b = true ↔ ext_le a b.
Proof.
  destruct a as [x |], b as [y |]; simpl; try tauto.
  - apply Q_leb_le.
  - split; [discriminate | tauto].
Qed.

Lemma ext_ltb_nle (a b : ext Q) : ltb a b = true ↔ ¬ ext_le b a.
Proof.
  unfold ltb. rewrite negb_true_iff, <- ext_leb_le.
  destruct (leb b a); split; intros; congruence.
Qed.

Lemma Q_leb_total (a b : Q) : leb a b = true ∨ leb b a = true.
Proof. rewrite !Q_leb_le. destruct (Qlt_le_dec a b); [left | right]; lra. Qed.

Lemma Q_leb_trans (a b c : Q) : leb a b = true → leb b c = true → leb a c = true.
Proof. rewrite !Q_leb_le. intros. lra. Qed.

Lemma surd_leb_le (a b : surd) : leb a b = true ↔ (sval a <= sval b)%R.
Proof. apply surd_leb_sval. Qed.

Lemma xsurd_leb_total (a b : ext surd) : leb a b = true ∨ leb b a = true.
Proof.
  destruct a as [x |], b as [y |]; simpl; auto.
  change (leb x y = true ∨ leb y x = true). rewrite !surd_leb_le.
  destruct (Rle_dec (sval x) (sval y)); [left | right]; lra.
Qed.

Lemma xsurd_leb_trans (a b c : ext surd) :
  leb a b = true → leb b c = true → leb a c = true.
Proof.
  destruct a as [x |], b as [y |], c as [z |]; simpl; auto; try discriminate.
  change (leb x y = true → leb y z = true → leb x z = true).
  rewrite !surd_leb_le. intros. lra.
Qed.

(** ** heappop yields a least entry *)

Section HeapFacts.
Context {P : Type} `{Leb P}.
Hypothesis leb_total : ∀ a b : P, leb a b = true ∨ leb b a = true.
Hypothesis leb_trans : ∀ a b c : P, leb a b = true → leb b c = true → leb a c = true.

Lemma entry_ltb_true (m x : P * string) :
  entry_ltb m x = true → leb m.1 x.1 = true.
Proof using leb_total leb_trans.
  unfold entry_ltb, eqb, ltb.
  destruct (leb m.1 x.1) eqn:E1; [reflexivity |].
  destruct (leb x.1 m.1) eqn:E2; simpl; [discriminate |].
  destruct (leb_total m.1 x.1); congruence.
Qed.

Lemma entry_ltb_false (m x : P * string) :
  entry_ltb m x = false → leb x.1 m.1 = true.
Proof using leb_total leb_trans.
  unfold entry_ltb, eqb, ltb.
  destruct (leb x.1 m.1) eqn:E2; [reflexivity |].
  destruct (leb m.1 x.1) eqn:E1; simpl; [discriminate |].
  destruct (leb_total m.1 x.1); congruence.
Qed.

Lemma extract_min_perm (h : list (P * string)) :
  ∀ x m r, extract_min x h = (m, r) → x :: h ≡ₚ m :: r.
Proof.
  induction h as [| y h IH]; intros x m r E; simpl in E.
  - by inversion E.
  - destruct (extract_min y h) as [m' r'] eqn:E'.
    specialize (IH _ _ _ E').
    destruct (entry_ltb m' x); inversion E; subst; [| done].
    rewrite IH. apply perm_swap.
Qed.

Lemma extract_min_least (h : list (P * string)) :
  ∀ x m r, extract_min x h = (m, r) → ∀ e, e ∈ x :: h → leb m.1 e.1 = true.
Proof using leb_total leb_trans.
  induction h as [| y h IH]; intros x m r E e He; simpl in E.
  - inversion E; subst. apply list_elem_of_singleton in He as ->.
    destruct (leb_total m.1 m.1); done.
  - destruct (extract_min y h) as [m' r'] eqn:E'.
    specialize (IH _ _ _ E').
    destruct (entry_ltb m' x) eqn:Elt; inversion E; subst.
    + apply elem_of_cons in He as [-> | He]; [by apply entry_ltb_true | by apply IH].
    + apply entry_ltb_false in Elt.
      apply elem_of_cons in He as [-> | He].
      * destruct (leb_total m.1 m.1); done.
      * eapply leb_trans; [exact Elt | by apply IH].
Qed.

Lemma heappop_spec (h : list (P * string)) e r :
  heappop h = Some (e, r) →
  h ≡ₚ e :: r ∧ ∀ e', e' ∈ h → leb e.1 e'.1 = true.
Proof using leb_total leb_trans.
  destruct h as [| x h]; simpl; [discriminate |].
  intros [= E]. split; [by apply extract_min_perm | by eapply extract_min_least].
Qed.

Lemma heappop_none (h : list (P * string)) : heappop h = None → h = [].
Proof. by destruct h. Qed.

End HeapFacts.

(** ** Running the monad *)

Lemma bind_ok {A B} (m : M A) (k : A → M B) g a g1 :
  m g = (Ok a, g1) → bind m k g = k a g1.
Proof. unfold bind. by intros ->. Qed.

Lemma getitem_ok {V} (d : gmap string V) k v g :
  d !! k = Some v → getitem d k g = (Ok v, g).
Proof. unfold getitem. by intros ->. Qed.

Lemma getitem_inv {V} (d : gmap string V) k r g g' :
  getitem d k g = (r, g') →
  g' = g ∧ match r with
           | Ok v => d !! k = Some v
           | Raise _ => d !! k = None
           | OutOfFuel => False
           end.
Proof.
  unfold getitem. destruct (d !! k); cbv [ret raise]; intros [= <- <-]; auto.
Qed.

Lemma get_neighbors_run id g : get_neighbors id g = (Ok (neighbors g id), g).
Proof.
  unfold get_neighbors, neighbors, bind, gets. by destruct (edges g !! id).
Qed.

Lemma euclidean_distance_run u v g :
  euclidean_distance u v g = (Ok (distance_of g u v), g).
Proof.
  unfold distance_of, euclidean_distance, bind, gets.
  by destruct (nodes g !! u), (nodes g !! v).
Qed.

Lemma heuristic_run e n g : heuristic e n g = (Ok (distance_of g n e), g).
Proof. apply euclidean_distance_run. Qed.

Lemma distance_of_rat g u v : rat (distance_of g u v) = 0.
Proof.
  unfold distance_of, euclidean_distance, bind, gets.
  by destruct (nodes g !! u), (nodes g !! v).
Qed.

(** ** The searches only read the graph *)

Lemma readonly_ret {A} (a : A) : readonly (ret a).
Proof. by intros g. Qed.

Lemma readonly_raise {A} e : readonly (@raise A e).
Proof. by intros g. Qed.

Lemma readonly_out_of_fuel {A} : readonly (@out_of_fuel A).
Proof. by intros g. Qed.

Lemma readonly_gets {A} (f : Graph → A) : readonly (gets f).
Proof. by intros g. Qed.

Lemma readonly_bind {A B} (m : M A) (k : A → M B) :
  readonly m → (∀ a, readonly (k a)) → readonly (bind m k).
Proof.
  intros Hm Hk g. unfold bind. specialize (Hm g).
  destruct (m g) as [[a | e |] g1]; simpl in *; subst; auto. apply Hk.
Qed.

Lemma readonly_getitem {V} (d : gmap string V) k : readonly (getitem d k).
Proof. unfold getitem. destruct (d !! k); [apply readonly_ret | apply readonly_raise]. Qed.

Lemma readonly_for_each {S X} (f : S → X → M S) l :
  (∀ st x, readonly (f st x)) → ∀ st, readonly (for_each f st l).
Proof.
  intros Hf. induction l as [| x l IH]; intros st; simpl.
  - apply readonly_ret.
  - apply readonly_bind; auto.
Qed.

Lemma readonly_get_neighbors id : readonly (get_neighbors id).
Proof. intros g. by rewrite get_neighbors_run. Qed.

Lemma readonly_heuristic e n : readonly (heuristic e n).
Proof. intros g. by rewrite heuristic_run. Qed.

Lemma readonly_reconstruct fuel pv : ∀ cur path, readonly (reconstruct fuel pv cur path).
Proof.
  induction fuel as [| fuel IH]; intros [c |] path; simpl;
    try apply readonly_ret; try apply readonly_out_of_fuel.
  apply readonly_bind; [apply readonly_getitem | auto].
Qed.

Create HintDb readonly.

#[local] Hint Resolve readonly_ret readonly_raise readonly_out_of_fuel readonly_gets
  readonly_getitem readonly_get_neighbors readonly_heuristic readonly_reconstruct
  : readonly.

Ltac readonly_tac :=
  repeat first
    [ progress auto with readonly
    | apply readonly_bind; [| intros ?]
    | apply readonly_for_each; intros ? ?
    | match goal with
      | |- readonly (if ?b then _ else _) => destruct b
      | |- readonly (match ?x with _ => _ end) => destruct x
      | |- readonly (let '(_, _) := ?x in _) => destruct x
      end ].

Lemma readonly_dijkstra_relax d c st nw : readonly (dijkstra_relax d c st nw).
Proof. unfold dijkstra_relax. readonly_tac. Qed.

Lemma readonly_dijkstra_iter e st : readonly (dijkstra_iter e st).
Proof.
  unfold dijkstra_iter. readonly_tac. apply readonly_dijkstra_relax.
Qed.

Lemma readonly_dijkstra_loop fuel e : ∀ st, readonly (dijkstra_loop fuel e st).
Proof.
  induction fuel as [| fuel IH]; intros st; simpl; [apply readonly_out_of_fuel |].
  apply readonly_bind; [apply readonly_dijkstra_iter |].
  intros [st' | st']; [apply IH | apply readonly_ret].
Qed.

Lemma readonly_dijkstra fuel s e : readonly (dijkstra fuel s e).
Proof.
  unfold dijkstra. apply readonly_bind; [apply readonly_gets | intros ns].
  destruct (decide _); [apply readonly_ret |].
  apply readonly_bind; [apply readonly_dijkstra_loop | intros st].
  readonly_tac.
Qed.

Lemma readonly_astar_relax e c st nw : readonly (astar_relax e c st nw).
Proof. unfold astar_relax. readonly_tac. Qed.

Lemma readonly_astar_iter e st : readonly (astar_iter e st).
Proof.
  unfold astar_iter. readonly_tac. apply readonly_astar_relax.
Qed.

Lemma readonly_astar_loop fuel e : ∀ st, readonly (astar_loop fuel e st).
Proof.
  induction fuel as [| fuel IH]; intros st; simpl; [apply readonly_out_of_fuel |].
  apply readonly_bind; [apply readonly_astar_iter |].
  intros [st' | st']; [apply IH | apply readonly_ret].
Qed.

Lemma readonly_astar fuel s e : readonly (astar fuel s e).
Proof.
  unfold astar. apply readonly_bind; [apply readonly_gets | intros ns].
  destruct (decide _); [apply readonly_ret |].
  apply readonly_bind; [apply readonly_heuristic | intros h0].
  apply readonly_bind; [apply readonly_heuristic | intros h1].
  apply readonly_bind; [apply readonly_astar_loop | intros st].
  readonly_tac.
Qed.

(** ** Graphs built by add_node and add_edge *)

Lemma add_node_run id x y name g :
  add_node id x y name g =
  match nodes g !! id with
  | None => (Ok (Node_init id x y name),
             mkGraph (<[id := Node_init id x y name]> (nodes g))
                     (<[id := []]> (edges g)))
  | Some n => (Ok n, g)
  end.
Proof.
  unfold add_node, bind, gets. simpl. by destruct (nodes g !! id).
Qed.

Lemma append_edge_run k e g :
  append_edge k e g =
  match edges g !! k with
  | Some l => (Ok tt, mkGraph (nodes g) (<[k := l ++ [e]]> (edges g)))
  | None => (Raise KeyError, g)
  end.
Proof.
  unfold append_edge, bind, gets, getitem. simpl. by destruct (edges g !! k).
Qed.

Lemma wf_add_node id x y name g :
  wf g →
  let g' := (add_node id x y name g).2 in
  wf g' ∧ id ∈ dom (nodes g') ∧ dom (nodes g) ⊆ dom (nodes g').
Proof.
  intros [Hd He]. rewrite add_node_run.
  destruct (nodes g !! id) as [n |] eqn:E; simpl.
  - split; [by split |]. split; [| done]. apply elem_of_dom. eauto.
  - split; [split; simpl |].
    + rewrite !dom_insert_L. by rewrite Hd.
    + intros u l e Hl Hin. rewrite dom_insert_L.
      destruct (decide (id = u)) as [-> | Hne].
      * rewrite lookup_insert_eq in Hl. injection Hl as <-. by apply elem_of_nil in Hin.
      * rewrite lookup_insert_ne in Hl by done. apply elem_of_union_r. eauto.
    + rewrite dom_insert_L. set_solver.
Qed.

Lemma wf_append_edge k e g :
  wf g → to_node e ∈ dom (nodes g) →
  let g' := (append_edge k e g).2 in
  wf g' ∧ nodes g' = nodes g.
Proof.
  intros [Hd He] Hto. rewrite append_edge_run.
  destruct (edges g !! k) as [l |] eqn:E; simpl; [| by split].
  split; [| done]. split; simpl.
  - rewrite dom_insert_L, <- Hd.
    assert (k ∈ dom (edges g)) by (apply elem_of_dom; eauto). set_solver.
  - intros u l' e' Hl Hin.
    destruct (decide (k = u)) as [-> | Hne].
    + rewrite lookup_insert_eq in Hl. injection Hl as <-.
      apply elem_of_app in Hin as [Hin | Hin]; [eauto |].
      by apply list_elem_of_singleton in Hin as ->.
    + rewrite lookup_insert_ne in Hl by done. eauto.
Qed.

Lemma wf_ensure_node id g :
  wf g →
  let g' := ((if decide (id ∉ dom (nodes g))
              then add_node id 0 0 "" ;;; ret tt else ret tt) g).2 in
  wf g' ∧ id ∈ dom (nodes g') ∧ dom (nodes g) ⊆ dom (nodes g').
Proof.
  intros Hwf. destruct (decide (id ∉ dom (nodes g))) as [Hn | Hn]; simpl.
  - pose proof (wf_add_node id 0 0 "" g Hwf) as H. simpl in H.
    unfold bind. destruct (add_node id 0 0 "" g) as [[n | e |] g1]; exact H.
  - split; [done |]. split; [| done].
    destruct (decide (id ∈ dom (nodes g))); [done | contradiction].
Qed.

Lemma wf_add_edge from to w name bi g :
  wf g → wf (add_edge from to w name bi g).2.
Proof.
  intros Hwf. unfold add_edge.
  unfold bind at 1. unfold gets at 1. cbv beta iota.
  pose proof (wf_ensure_node from g Hwf) as H1. simpl in H1.
  unfold bind at 1.
  destruct ((if decide (from ∉ dom (nodes g))
             then add_node from 0 0 "" ;;; ret tt else ret tt) g)
    as [[[] | e |] g1]; simpl in H1; destruct H1 as (Hwf1 & Hf1 & Hs1); try done.
  unfold bind at 1. unfold gets at 1. cbv beta iota.
  pose proof (wf_ensure_node to g1 Hwf1) as H2. simpl in H2.
  unfold bind at 1.
  destruct ((if decide (to ∉ dom (nodes g1))
             then add_node to 0 0 "" ;;; ret tt else ret tt) g1)
    as [[[] | e |] g2]; simpl in H2; destruct H2 as (Hwf2 & Hf2 & Hs2); try done.
  assert (Hfrom : from ∈ dom (nodes g2)) by set_solver.
  pose proof (wf_append_edge from (mkEdge from to w name) g2 Hwf2 Hf2) as H3.
  simpl in H3. unfold bind at 1.
  destruct (append_edge from (mkEdge from to w name) g2)
    as [[[] | e |] g3]; simpl in H3; destruct H3 as (Hwf3 & Hn3); try done.
  destruct bi; [| done].
  assert (Hfrom3 : from ∈ dom (nodes g3)) by (by rewrite Hn3).
  pose proof (wf_append_edge to (mkEdge to from w name) g3 Hwf3 Hfrom3) as H4.
  simpl in H4. by destruct H4.
Qed.

Lemma constructed_wf g : constructed g → wf g.
Proof.
  induction 1 as [| g id x y name _ IH | g from to w name bi _ IH].
  - split; simpl; [by rewrite !dom_empty_L |].
    intros u l e Hl. by rewrite lookup_empty in Hl.
  - by apply wf_add_node.
  - by apply wf_add_edge.
Qed.

Lemma wf_edge_dest g u v w : wf g → edge g u v w → v ∈ dom (nodes g).
Proof.
  intros [_ He]. unfold edge, neighbors.
  destruct (edges g !! u) as [l |] eqn:E; [| by intros ?%elem_of_nil].
  intros Hin. apply list_elem_of_fmap in Hin as (e & [= -> ->] & Hin). eauto.
Qed.

(** ** The shared search: what every state satisfies *)

Section AbstractFacts.
Context (g : Graph) (start end_ : string).

Lemma ext_nle_fin (dx : ext Q) (t d : Q) :
  ¬ ext_le dx (Fin t) → dx = Fin d → t < d.
Proof. intros Hn ->. simpl in Hn. by apply Qnot_le_lt. Qed.

Lemma relax1_mono skipv b c x w v v' :
  relax1 skipv b c x w v v' →
  vis v' = vis v ∧
  (∀ e, e ∈ q v → e ∈ q v') ∧
  (∀ n dn, cost v !! n = Some (Fin dn) →
     ∃ dn', cost v' !! n = Some (Fin dn') ∧ dn' <= dn) ∧
  (length (q v') ≤ S (length (q v)))%nat ∧
  dom (cost v') = dom (cost v) ∧
  (∀ n, n ∈ vis v → skipv = true →
     cost v' !! n = cost v !! n ∧ prev v' !! n = prev v !! n).
Proof.
  intros [Hk | t p dx Ht Hp Hx Hlt Hs]; simpl.
  - repeat split; auto. intros n dn Hn. exists dn. split; [done | lra].
  - split; [done |]. split; [intros e He; apply elem_of_app; by left |].
    split; [| split; [| split]].
    + intros n dn Hn. destruct (decide (x = n)) as [-> | Hne].
      * rewrite lookup_insert_eq. exists t. split; [done |].
        rewrite Hx in Hn. injection Hn as ->.
        pose proof (ext_nle_fin _ _ _ Hlt eq_refl). lra.
      * rewrite lookup_insert_ne by done. exists dn. split; [done | lra].
    + rewrite length_app. simpl. lia.
    + rewrite dom_insert_L.
      assert (x ∈ dom (cost v)) by (apply elem_of_dom; eauto). set_solver.
    + intros n Hn Hsk. specialize (Hs Hsk).
      assert (x ≠ n) by (intros ->; contradiction).
      by rewrite !lookup_insert_ne.
Qed.

Lemma relax1_reached skipv b c x w v v' :
  relax1 skipv b c x w v v' → inv0 g start end_ v →
  ∃ dx, cost v' !! x = Some (Fin dx).
Proof.
  intros [Hk | t p dx Ht Hp Hx Hlt Hs] Hinv; simpl.
  - destruct Hk as [[_ Hv] | (dx & Hx & Hle)].
    + by apply (i_vis_fin _ _ _ _ Hinv).
    + destruct dx as [d |]; [eauto | done].
  - rewrite lookup_insert_eq. eauto.
Qed.

Lemma relax1_inv0 skipv b c x w v v' :
  relax1 skipv b c x w v v' → inv0 g start end_ v →
  c ∈ vis v → (∃ c0, walk g start c c0 ∧ c0 == b) → edge g c x w →
  inv0 g start end_ v'.
Proof.
  intros [Hk | t p dx Ht Hp Hx Hlt Hs] Hinv Hc (c0 & Hw & Hc0) He; [done |].
  destruct Hinv as [Hdc Hdp Hend Hst Hge Hfr Hso Hvf Hpe Hfp].
  assert (Hxd : x ∈ dom (cost v)) by (apply elem_of_dom; eauto).
  split; simpl.
  - rewrite dom_insert_L. set_solver.
  - rewrite dom_insert_L. rewrite Hdp, <- Hdc. set_solver.
  - done.
  - destruct Hst as (d0 & Hd0 & Hle0).
    destruct (decide (x = start)) as [-> | Hne].
    + rewrite lookup_insert_eq. exists t. split; [done |].
      rewrite Hx in Hd0. injection Hd0 as ->.
      pose proof (ext_nle_fin _ _ _ Hlt eq_refl). lra.
    + rewrite lookup_insert_ne by done. eauto.
  - intros d n Hin. apply elem_of_app in Hin as [Hin | Hin].
    + destruct (Hge _ _ Hin) as (dn & Hn & Hle).
      destruct (decide (x = n)) as [-> | Hne].
      * rewrite lookup_insert_eq. exists t. split; [done |].
        rewrite Hx in Hn. injection Hn as ->.
        pose proof (ext_nle_fin _ _ _ Hlt eq_refl). lra.
      * rewrite lookup_insert_ne by done. eauto.
    + apply list_elem_of_singleton in Hin. injection Hin as -> ->.
      rewrite lookup_insert_eq. exists t. split; [done | lra].
  - intros n dn Hn Hcn. destruct (decide (x = n)) as [-> | Hne].
    + rewrite lookup_insert_eq in Hcn. injection Hcn as <-.
      exists p. split; [| done]. apply elem_of_app. right. by apply list_elem_of_singleton.
    + rewrite lookup_insert_ne in Hcn by done.
      destruct (Hfr _ _ Hn Hcn) as (d & Hin & Hd).
      exists d. split; [| done]. apply elem_of_app. by left.
  - intros n dn Hcn. destruct (decide (x = n)) as [-> | Hne].
    + rewrite lookup_insert_eq in Hcn. injection Hcn as <-.
      exists (c0 + w). split; [by eapply walk_snoc | lra].
    + rewrite lookup_insert_ne in Hcn by done. eauto.
  - intros n Hn. destruct (decide (x = n)) as [-> | Hne].
    + rewrite lookup_insert_eq. eauto.
    + rewrite lookup_insert_ne by done. eauto.
  - intros n c' Hp'. destruct (decide (x = n)) as [-> | Hne].
    + rewrite lookup_insert_eq in Hp'. injection Hp' as <-.
      rewrite lookup_insert_eq. eauto.
    + rewrite lookup_insert_ne in Hp' by done. rewrite lookup_insert_ne by done. eauto.
  - intros n dn Hcn. destruct (decide (x = n)) as [-> | Hne].
    + rewrite lookup_insert_eq. eauto.
    + rewrite lookup_insert_ne in Hcn by done. rewrite lookup_insert_ne by done. eauto.
Qed.

Lemma relax_all_mono skipv b c l v v' :
  relax_all skipv b c l v v' →
  vis v' = vis v ∧
  (∀ e, e ∈ q v → e ∈ q v') ∧
  (∀ n dn, cost v !! n = Some (Fin dn) →
     ∃ dn', cost v' !! n = Some (Fin dn') ∧ dn' <= dn) ∧
  (length (q v') ≤ length (q v) + length l)%nat ∧
  dom (cost v') = dom (cost v) ∧
  (∀ n, n ∈ vis v → skipv = true →
     cost v' !! n = cost v !! n ∧ prev v' !! n = prev v !! n).
Proof.
  induction 1 as [v | x w l v v1 v2 H1 Hall IH]; simpl.
  - repeat split; auto; [| lia]. intros n dn Hn. exists dn. split; [done | lra].
  - destruct (relax1_mono _ _ _ _ _ _ _ H1) as (Hv & Hq & Hc & Hl & Hd & Hf).
    destruct IH as (Hv' & Hq' & Hc' & Hl' & Hd' & Hf').
    split; [congruence |]. split; [auto |]. split; [| split; [lia | split; [congruence |]]].
    + intros n dn Hn. destruct (Hc _ _ Hn) as (d1 & H1' & Hle1).
      destruct (Hc' _ _ H1') as (d2 & H2' & Hle2). exists d2. split; [done | lra].
    + intros n Hn Hsk. destruct (Hf _ Hn Hsk) as [E1 E2].
      rewrite <- Hv in Hn. destruct (Hf' _ Hn Hsk) as [E3 E4]. split; congruence.
Qed.

Lemma relax_all_inv0 skipv b c l v v' :
  relax_all skipv b c l v v' → inv0 g start end_ v →
  c ∈ vis v → (∃ c0, walk g start c c0 ∧ c0 == b) →
  (∀ x w, (x, w) ∈ l → edge g c x w) →
  inv0 g start end_ v' ∧
  ∀ x w, (x, w) ∈ l → ∃ dx, cost v' !! x = Some (Fin dx).
Proof.
  induction 1 as [v | x w l v v1 v2 H1 Hall IH]; intros Hinv Hc Hw Hl.
  - split; [done |]. intros x w Hin. by apply elem_of_nil in Hin.
  - assert (He : edge g c x w) by (apply Hl; left).
    pose proof (relax1_inv0 _ _ _ _ _ _ _ H1 Hinv Hc Hw He) as Hinv1.
    destruct (relax1_mono _ _ _ _ _ _ _ H1) as (Hv & _).
    destruct IH as [Hinv2 Hr]; auto.
    { by rewrite Hv. }
    { intros y w' Hin. apply Hl. by right. }
    split; [done |]. intros y w' Hin.
    apply elem_of_cons in Hin as [[= -> ->] | Hin]; [| eauto].
    destruct (relax1_reached _ _ _ _ _ _ _ H1 Hinv) as (dx & Hx).
    destruct (relax_all_mono _ _ _ _ _ _ Hall) as (_ & _ & Hm & _).
    destruct (Hm _ _ Hx) as (d' & Hd' & _). eauto.
Qed.

Lemma is_pop_elem (h : string → R) l e l' e' : is_pop h l e l' → e' ∈ l ↔ e' = e ∨ e' ∈ l'.
Proof. intros [Hp _]. rewrite Hp. apply elem_of_cons. Qed.

Lemma is_pop_length (h : string → R) l e l' : is_pop h l e l' → length l = S (length l').
Proof. intros [Hp _]. by rewrite Hp. Qed.

(** Settling the popped key keeps the invariant. *)
Lemma inv0_settle (h : string → R) v d n q' :
  inv0 g start end_ v → is_pop h (q v) (d, n) q' → n ≠ end_ →
  inv0 g start end_ (mkV q' (cost v) (prev v) ({[n]} ∪ vis v)).
Proof.
  intros [Hdc Hdp Hend Hst Hge Hfr Hso Hvf Hpe Hfp] Hpop Hne.
  split; simpl; auto.
  - set_solver.
  - intros d' n' Hin. apply Hge. apply (is_pop_elem _ _ _ _ _ Hpop). by right.
  - intros m dm Hm Hcm.
    destruct (Hfr m dm) as (d' & Hin & Hd'); [set_solver | done |].
    apply (is_pop_elem _ _ _ _ _ Hpop) in Hin as [[= -> ->] | Hin]; [set_solver | eauto].
  - intros m Hm. apply elem_of_union in Hm as [Hm | Hm]; [| auto].
    apply elem_of_singleton in Hm as ->.
    destruct (Hge d n) as (dn & Hn & _); [| eauto].
    apply (is_pop_elem _ _ _ _ _ Hpop). by left.
  - intros m c Hp. destruct (Hpe _ _ Hp) as (He & Hc & Hf).
    split; [done |]. split; [set_solver | done].
Qed.

Lemma inv0_skip (h : string → R) v d n q' :
  inv0 g start end_ v → is_pop h (q v) (d, n) q' → n ∈ vis v →
  inv0 g start end_ (mkV q' (cost v) (prev v) (vis v)).
Proof.
  intros [Hdc Hdp Hend Hst Hge Hfr Hso Hvf Hpe Hfp] Hpop Hn.
  split; simpl; auto.
  - intros d' n' Hin. apply Hge. apply (is_pop_elem _ _ _ _ _ Hpop). by right.
  - intros m dm Hm Hcm.
    destruct (Hfr m dm) as (d' & Hin & Hd'); [done | done |].
    apply (is_pop_elem _ _ _ _ _ Hpop) in Hin as [[= -> ->] | Hin]; [done | eauto].
Qed.

Lemma astep_inv0 (h : string → R) skipv v v' :
  inv0 g start end_ v → expanded_on g (vis v) v →
  astep g end_ h skipv v (Continue v') →
  inv0 g start end_ v' ∧ expanded_on g (vis v') v'.
Proof.
  intros Hinv Hex Hstep. inversion Hstep as [| d n q' Hpop Hn | | d n q' b bn v0 Hpop Hn Hne Hcn Hb Hall]; subst.
  - split; [by eapply inv0_skip |]. done.
  - pose proof (inv0_settle _ _ _ _ _ Hinv Hpop Hne) as Hinv1.
    destruct (i_sound _ _ _ _ Hinv _ _ Hcn) as (c0 & Hw & Hc0).
    destruct (relax_all_inv0 _ _ _ _ _ _ Hall Hinv1) as [Hinv2 Hr]; simpl.
    { set_solver. }
    { exists c0. split; [done | lra]. }
    { auto. }
    split; [done |].
    destruct (relax_all_mono _ _ _ _ _ _ Hall) as (Hv & _ & Hm & _). simpl in *.
    intros m x w Hm' He. rewrite Hv in Hm'.
    apply elem_of_union in Hm' as [Hm' | Hm'].
    + apply elem_of_singleton in Hm' as ->. eauto.
    + destruct (Hex _ _ _ Hm' He) as (dx & Hx).
      destruct (Hm _ _ Hx) as (d' & Hd' & _). eauto.
Qed.

End AbstractFacts.

(** ** The shared search: progress and predecessor chains *)

Section AbstractProgress.
Context (g : Graph) (start end_ : string).

Lemma out_degree_absent n : n ∉ dom (edges g) → out_degree g n = 0%nat.
Proof.
  intros Hn. apply not_elem_of_dom in Hn. unfold out_degree, neighbors. by rewrite Hn.
Qed.

Lemma pending_settle (X S : gset string) n :
  n ∉ S →
  (sum_list_with (out_degree g) (elements (dom (edges g) ∖ ({[n]} ∪ S)))
   + out_degree g n)%nat
  = sum_list_with (out_degree g) (elements (dom (edges g) ∖ S)).
Proof.
  intros Hn. destruct (decide (n ∈ dom (edges g))) as [Hin | Hout].
  - assert (E : dom (edges g) ∖ S = {[n]} ∪ dom (edges g) ∖ ({[n]} ∪ S)).
    { apply set_eq. intros y. destruct (decide (y = n)); set_solver. }
    rewrite E, elements_union_singleton by set_solver. simpl. lia.
  - rewrite out_degree_absent by done.
    replace (dom (edges g) ∖ ({[n]} ∪ S)) with (dom (edges g) ∖ S) by set_solver. lia.
Qed.

Lemma astep_measure (h : string → R) skipv v v' :
  astep g end_ h skipv v (Continue v') → (measure g v' < measure g v)%nat.
Proof.
  intros Hstep.
  inversion Hstep as [| d n q' Hpop Hn | | d n q' b bn v0 Hpop Hn Hne Hcn Hb Hall]; subst.
  - unfold measure; simpl. rewrite (is_pop_length _ _ _ _ Hpop). lia.
  - destruct (relax_all_mono _ _ _ _ _ _ Hall) as (Hv & _ & _ & Hl & _). simpl in *.
    unfold measure. rewrite Hv, (is_pop_length _ _ _ _ Hpop).
    rewrite <- (pending_settle (dom (edges g)) (vis v) n Hn).
    unfold out_degree at 3. lia.
Qed.






(** Following a chain is what [reconstruct] does. *)
Lemma reconstruct_chain pv n l :
  chain pv n l →
  ∀ fuel path gr, (length l < fuel)%nat →
  reconstruct fuel pv (Some n) path gr = (Ok (path ++ n :: l), gr).
Proof.
  induction 1 as [n Hn | n c l Hn Hc IH]; intros fuel path gr Hf;
    (destruct fuel as [| fuel]; [simpl in Hf; lia |]); simpl.
  - rewrite (bind_ok _ _ _ _ _ (getitem_ok _ _ _ gr Hn)).
    by destruct fuel.
  - rewrite (bind_ok _ _ _ _ _ (getitem_ok _ _ _ gr Hn)).
    simpl in Hf. rewrite IH by lia. by rewrite <- app_assoc.
Qed.

(** A successful reconstruction walked a chain. *)
Lemma reconstruct_inv pv :
  ∀ fuel n path gr out gr',
  reconstruct fuel pv (Some n) path gr = (Ok out, gr') →
  ∃ l, chain pv n l ∧ out = path ++ n :: l.
Proof.
  induction fuel as [| fuel IH]; intros n path gr out gr' E; simpl in E; [done |].
  unfold bind in E. destruct (getitem pv n gr) as [[p | e |] g1] eqn:Eg; try done.
  apply getitem_inv in Eg as [-> Hp].
  destruct p as [c |].
  - apply IH in E as (l & Hl & ->). exists (c :: l).
    split; [by apply chain_cons |]. by rewrite <- app_assoc.
  - destruct fuel; simpl in E; injection E as <- <-; exists []; split; auto using chain_nil.
Qed.

Lemma chain_unique pv n l1 : chain pv n l1 → ∀ l2, chain pv n l2 → l1 = l2.
Proof.
  induction 1 as [n Hn | n c l Hn Hc IH]; intros l2 H2; inversion H2; subst; try congruence.
  assert (c = c0) by congruence. subst. f_equal. auto.
Qed.

Lemma chain_at pv n l :
  chain pv n l → ∀ i m, (n :: l) !! i = Some m → chain pv m (drop i l).
Proof.
  induction 1 as [n Hn | n c l Hn Hc IH]; intros i m Hi.
  - destruct i as [| i]; [| done]. injection Hi as <-. by apply chain_nil.
  - destruct i as [| i]; simpl in *.
    + injection Hi as <-. by eapply chain_cons.
    + by apply IH.
Qed.

(** A chain that ends never meets a key twice. *)
Lemma chain_NoDup pv n l : chain pv n l → NoDup (n :: l).
Proof.
  induction 1 as [n Hn | n c l Hn Hc IH].
  - apply NoDup_singleton.
  - apply NoDup_cons. split; [| done].
    intros Hin. apply list_elem_of_lookup in Hin as (i & Hi).
    pose proof (chain_at _ _ _ Hc _ _ Hi) as Hs.
    assert (E : drop i l = c :: l).
    { eapply chain_unique; [exact Hs | by eapply chain_cons]. }
    apply (f_equal length) in E. rewrite length_drop in E. simpl in E. lia.
Qed.

End AbstractProgress.

(** ** The shared search under a consistent potential *)

Ltac q2r :=
  repeat match goal with
    | H : Qle _ _ |- _ => apply Qle_Rle in H
    | H : Qlt _ _ |- _ => apply Qlt_Rlt in H
    | H : Qeq _ _ |- _ => apply Qeq_eqR in H
    end;
  rewrite ?Q2R_plus, ?RMicromega.Q2R_0 in *.

Section AbstractOptimal.
Context (g : Graph) (start end_ : string) (h : string → R).






(** The popped key carries its recorded cost: no stale entry is expanded. *)
Lemma pop_fresh v d n q' bn :
  inv0 g start end_ v → is_pop h (q v) (d, n) q' → n ∉ vis v →
  cost v !! n = Some (Fin bn) → d == bn.
Proof.
  intros Hinv Hpop Hn Hcn.
  destruct (i_q_ge _ _ _ _ Hinv d n) as (dn & Hdn & Hle).
  { apply (is_pop_elem _ _ _ _ _ Hpop). by left. }
  rewrite Hcn in Hdn. injection Hdn as <-.
  destruct (i_frontier _ _ _ _ Hinv _ _ Hn Hcn) as (d0 & Hin & Hd0).
  destruct Hpop as [_ Hmin]. specialize (Hmin _ Hin). unfold prio in Hmin. simpl in Hmin.
  apply Qle_antisym; [| done]. apply Rle_Qle. q2r. lra.
Qed.








End AbstractOptimal.

(** ** Runs of the shared search *)

Lemma arun_last g end_ h skipv (P : view → Prop) v vf :
  arun g end_ h skipv v vf → P v →
  (∀ v v', P v → astep g end_ h skipv v (Continue v') → P v') →
  ∃ v', P v' ∧ astep g end_ h skipv v' (Break vf).
Proof.
  induction 1 as [v vf Hb | v v1 vf Hs Hr IH]; intros HP Hpres; eauto.
Qed.

Lemma inv_basic_step g start end_ h skipv v v' :
  inv_basic g start end_ v → astep g end_ h skipv v (Continue v') →
  inv_basic g start end_ v'.
Proof. intros [H0 Hex] Hs. by eapply astep_inv0. Qed.




(** The first state of either loop. *)
Lemma init_view g start end_ h d0 :
  start ∈ dom (nodes g) → d0 == 0 →
  let v := mkV [(d0, start)] (<[start := Fin 0]> ((λ _, Inf) <$> nodes g))
               ((λ _, None) <$> nodes g) ∅ in
  inv_basic g start end_ v ∧ inv_opt g h v ∧ inv_chain v.
Proof.
  intros Hs Hd0 v.
  assert (Hfin : ∀ n dn, cost v !! n = Some (Fin dn) → n = start ∧ dn = 0).
  { intros n dn. subst v; simpl. destruct (decide (start = n)) as [-> | Hne].
    - rewrite lookup_insert_eq. by intros [= <-].
    - rewrite lookup_insert_ne, lookup_fmap by done.
      by destruct (nodes g !! n). }
  assert (Hst : cost v !! start = Some (Fin 0)) by (subst v; simpl; by rewrite lookup_insert_eq).
  split; [split; [split |] |]; subst v; simpl in *.
  - rewrite dom_insert_L, dom_fmap_L. set_solver.
  - by rewrite dom_fmap_L.
  - set_solver.
  - exists 0. split; [done | lra].
  - intros d n Hin. apply list_elem_of_singleton in Hin. injection Hin as -> ->.
    exists 0. split; [done | lra].
  - intros n dn _ Hn. destruct (Hfin _ _ Hn) as [-> ->].
    exists d0. split; [by apply list_elem_of_singleton | done].
  - intros n dn Hn. destruct (Hfin _ _ Hn) as [-> ->].
    exists 0. split; [apply walk_nil | lra].
  - intros n Hn. set_solver.
  - intros n c. rewrite lookup_fmap. by destruct (nodes g !! n).
  - intros n dn Hn. destruct (Hfin _ _ Hn) as [-> ->]. by left.
  - intros n x w Hn. set_solver.
  - split; [split |].
    + intros m d x Hm. set_solver.
    + intros n x w dn Hn. set_solver.
    + intros n dn Hn. destruct (Hfin _ _ Hn) as [-> ->].
      exists []. split; [| split].
      * apply chain_nil. simpl. rewrite lookup_fmap.
        apply elem_of_dom in Hs as [nd ->]. done.
      * apply NoDup_singleton.
      * intros m Hm. by apply elem_of_nil in Hm.
Qed.

Ltac ret_inv := cbv beta iota delta [ret raise out_of_fuel]; intros [= <- <-].

(** ** dijkstra refines the shared search *)

Section DijkstraSim.
Context (g : Graph) (start end_ : string).

Lemma dijkstra_relax_sim d c st x w gr r gr' :
  dijkstra_relax d c st (x, w) gr = (r, gr') →
  gr' = gr ∧
  match r with
  | Ok st' => relax1 false d c x w (dview st) (dview st')
  | Raise _ => x ∉ dom (distances st)
  | OutOfFuel => False
  end.
Proof.
  unfold dijkstra_relax, bind.
  destruct (getitem (distances st) x gr) as [[dn | e |] g1] eqn:Eg;
    apply getitem_inv in Eg as [-> Hx].
  - destruct (ltb (Fin (d + w)) dn) eqn:El; intros [= <- <-]; split; auto.
    + apply ext_ltb_nle in El.
      apply (relax_update false d c x w (dview st) (d + w) (d + w) dn);
        [reflexivity | reflexivity | done | done | done].
    + apply relax_keep. right. exists dn. split; [done |].
      apply ext_leb_le. unfold ltb in El. by apply negb_false_iff in El.
  - intros [= <- <-]. split; [done |]. by apply not_elem_of_dom.
  - done.
Qed.

Lemma dijkstra_for_each_sim d c l :
  ∀ st gr r gr',
  for_each (dijkstra_relax d c) st l gr = (r, gr') →
  gr' = gr ∧
  match r with
  | Ok st' => relax_all false d c l (dview st) (dview st')
  | Raise _ => ∃ x w, (x, w) ∈ l ∧ x ∉ dom (distances st)
  | OutOfFuel => False
  end.
Proof.
  induction l as [| [x w] l IH]; intros st gr r gr'; cbn [for_each].
  - intros [= <- <-]. split; [done | apply relax_all_nil].
  - unfold bind. destruct (dijkstra_relax d c st (x, w) gr) as [[st1 | e |] g1] eqn:E1;
      apply dijkstra_relax_sim in E1 as [-> H1].
    + intros E2. apply IH in E2 as [-> H2]. split; [done |].
      destruct r as [st' | e |]; [| | done].
      * by eapply relax_all_cons.
      * destruct H2 as (y & w' & Hin & Hy). exists y, w'. split; [by right |].
        destruct (relax1_mono _ _ _ _ _ _ _ H1) as (_ & _ & _ & _ & Hd & _).
        simpl in Hd. by rewrite <- Hd.
    + intros [= <- <-]. split; [done |]. exists x, w. split; [by left | done].
    + done.
Qed.

Lemma d_pop_sim (pq pq' : list (Q * string)) e :
  heappop pq = Some (e, pq') → is_pop hzero pq e pq'.
Proof.
  intros Hp. apply (heappop_spec Q_leb_total Q_leb_trans) in Hp as [Hperm Hmin].
  split; [done |]. intros e' He'. specialize (Hmin _ He').
  apply Q_leb_le in Hmin. unfold prio, hzero. q2r. lra.
Qed.

Lemma dijkstra_iter_sim st gr r gr' :
  dijkstra_iter end_ st gr = (r, gr') → inv0 gr start end_ (dview st) →
  gr' = gr ∧
  match r with
  | Ok c => astep gr end_ hzero false (dview st) (ctl_map dview c)
  | Raise _ => ∃ n x w, edge gr n x w ∧ x ∉ dom (nodes gr)
  | OutOfFuel => False
  end.
Proof.
  unfold dijkstra_iter. intros E Hinv. revert E.
  destruct (heappop (d_pq st)) as [[[d n] pq'] |] eqn:Ep.
  - apply d_pop_sim in Ep. cbv zeta. cbn [d_visited distances d_pq d_previous].
    destruct (decide (n ∈ d_visited st)) as [Hv | Hv].
    { ret_inv. split; [done |]. by eapply (astep_skip _ _ _ _ (dview st)). }
    destruct (decide (n = end_)) as [He | He].
    { ret_inv. split; [done |]. by eapply (astep_goal _ _ _ _ (dview st)). }
    destruct (i_q_ge _ _ _ _ Hinv d n) as (bn & Hbn & Hle).
    { apply (is_pop_elem _ _ _ _ _ Ep). by left. }
    pose proof (pop_fresh _ _ _ _ _ _ _ _ _ Hinv Ep Hv Hbn) as Hd.
    simpl in Hbn. unfold bind at 1. rewrite (getitem_ok _ _ _ gr Hbn).
    destruct (ltb (Fin bn) (Fin d)) eqn:El.
    { apply ext_ltb_nle in El. simpl in El. exfalso. apply El. lra. }
    unfold bind at 1. rewrite get_neighbors_run. unfold bind at 1.
    destruct (for_each _ _ _ gr) as [[st3 | e |] g1] eqn:Ef;
      apply dijkstra_for_each_sim in Ef as [-> Hf]; simpl in Hf.
    + ret_inv. split; [done |].
      by eapply (astep_expand _ _ _ _ (dview st) d n pq' d bn).
    + ret_inv. split; [done |].
      destruct Hf as (x & w & Hin & Hx). exists n, x, w. split; [done |].
      by rewrite <- (i_dom_cost _ _ _ _ Hinv).
    + done.
  - ret_inv. split; [done |]. apply astep_empty.
    by apply heappop_none in Ep.
Qed.

Lemma dijkstra_loop_sim fuel :
  ∀ st gr r gr',
  dijkstra_loop fuel end_ st gr = (r, gr') →
  inv_basic gr start end_ (dview st) →
  gr' = gr ∧
  match r with
  | Ok st' => arun gr end_ hzero false (dview st) (dview st')
  | Raise _ => ∃ n x w, edge gr n x w ∧ x ∉ dom (nodes gr)
  | OutOfFuel => (fuel ≤ measure gr (dview st))%nat
  end.
Proof.
  induction fuel as [| fuel IH]; intros st gr r gr' E Hinv; simpl in E.
  - injection E as <- <-. split; [done | lia].
  - unfold bind in E.
    destruct (dijkstra_iter end_ st gr) as [[c | e |] g1] eqn:Ei;
      apply dijkstra_iter_sim in Ei as [-> Hi]; try apply Hinv.
    + destruct c as [st1 | st1]; simpl in Hi.
      * pose proof (inv_basic_step _ _ _ _ _ _ _ Hinv Hi) as Hinv1.
        apply IH in E as [-> Hr]; [| done]. split; [done |].
        destruct r as [st' | e |].
        -- by eapply arun_continue.
        -- done.
        -- pose proof (astep_measure _ _ _ _ _ _ Hi). lia.
      * injection E as <- <-. split; [done |]. by apply arun_break.
    + injection E as <- <-. by split.
    + done.
Qed.

End DijkstraSim.

(** ** astar refines the shared search *)

Section AstarSim.
Context (g : Graph) (start end_ : string).

Lemma hR_rad gr x : sqrt (Q2R (rad (distance_of gr x end_))) = hR gr end_ x.
Proof.
  unfold hR, sval. rewrite distance_of_rat, RMicromega.Q2R_0. lra.
Qed.

Lemma hR_nonneg gr x : (0 <= hR gr end_ x)%R.
Proof. rewrite <- hR_rad. apply sqrt_pos. Qed.

Lemma a_shape_prio gr st f n :
  a_shape gr end_ st → (f, n) ∈ a_pq st →
  ∃ s, f = Fin s ∧ prio (hR gr end_) (entry_cost (f, n)) = sval s.
Proof.
  intros Hsh Hin. destruct (Hsh _ _ Hin) as (s & -> & Hs).
  exists s. split; [done |]. unfold prio, entry_cost, sval; simpl. by rewrite Hs.
Qed.

Lemma a_pop_sim gr st f n pq' :
  heappop (a_pq st) = Some ((f, n), pq') → a_shape gr end_ st →
  is_pop (hR gr end_) (map entry_cost (a_pq st)) (entry_cost (f, n))
         (map entry_cost pq') ∧
  (∀ e, e ∈ pq' → e ∈ a_pq st).
Proof.
  intros Hp Hsh.
  apply (heappop_spec xsurd_leb_total xsurd_leb_trans) in Hp as [Hperm Hmin].
  assert (Hin : (f, n) ∈ a_pq st) by (rewrite Hperm; left).
  split; [split |].
  - change (entry_cost (f, n) :: map entry_cost pq')
      with (map entry_cost ((f, n) :: pq')).
    by apply Permutation_map.
  - intros e' He'. apply list_elem_of_fmap in He' as ([f0 n0] & -> & Hin0).
    specialize (Hmin _ Hin0). simpl in Hmin.
    destruct (a_shape_prio _ _ _ _ Hsh Hin) as (s & -> & ->).
    destruct (a_shape_prio _ _ _ _ Hsh Hin0) as (s0 & -> & ->).
    by apply surd_leb_le.
  - intros e He. rewrite Hperm. by right.
Qed.

Lemma astar_relax_sim c st x w gr r gr' bn :
  astar_relax end_ c st (x, w) gr = (r, gr') →
  g_score st !! c = Some (Fin bn) → c ∈ a_visited st → a_shape gr end_ st →
  gr' = gr ∧
  match r with
  | Ok st' => relax1 true bn c x w (aview st) (aview st') ∧
              a_shape gr end_ st' ∧ g_score st' !! c = Some (Fin bn)
  | Raise _ => x ∉ dom (g_score st)
  | OutOfFuel => False
  end.
Proof.
  unfold astar_relax. intros E Hc Hcv Hsh. revert E.
  destruct (decide (x ∈ a_visited st)) as [Hv | Hv].
  { ret_inv. split; [done |]. split; [| done]. apply relax_keep. by left. }
  unfold bind at 1. rewrite (getitem_ok _ _ _ gr Hc). cbv zeta. simpl ext_add.
  unfold bind at 1.
  destruct (getitem (g_score st) x gr) as [[gn | e |] g1] eqn:Eg;
    apply getitem_inv in Eg as [-> Hx]; [| | done].
  - destruct (ltb (Fin (bn + w)) gn) eqn:El.
    + unfold bind at 1. rewrite heuristic_run. unfold bind at 1.
      rewrite (getitem_ok _ _ (Fin (surd_add (bn + w) (distance_of gr x end_))) gr)
        by (simpl; by rewrite lookup_insert_eq).
      ret_inv. split; [done |]. apply ext_ltb_nle in El.
      split; [| split].
      * unfold aview; simpl. unfold heappush. rewrite map_app. simpl.
        apply (relax_update true bn c x w (aview st) (bn + w)
                 (bn + w + rat (distance_of gr x end_)) gn); auto.
        -- reflexivity.
        -- rewrite distance_of_rat. lra.
      * intros f n Hin; simpl in Hin. unfold heappush in Hin.
        apply elem_of_app in Hin as [Hin | Hin]; [by apply Hsh |].
        apply list_elem_of_singleton in Hin. injection Hin as -> ->.
        eexists. split; [reflexivity |]. simpl. apply hR_rad.
      * simpl. rewrite lookup_insert_ne; [done |]. intros ->. done.
    + ret_inv. split; [done |]. split; [| done].
      apply relax_keep. right. exists gn. split; [done |].
      apply ext_leb_le. unfold ltb in El. by apply negb_false_iff in El.
  - ret_inv. split; [done |]. by apply not_elem_of_dom.
Qed.

Lemma astar_for_each_sim c l bn :
  ∀ st gr r gr',
  for_each (astar_relax end_ c) st l gr = (r, gr') →
  g_score st !! c = Some (Fin bn) → c ∈ a_visited st → a_shape gr end_ st →
  gr' = gr ∧
  match r with
  | Ok st' => relax_all true bn c l (aview st) (aview st') ∧ a_shape gr end_ st'
  | Raise _ => ∃ x w, (x, w) ∈ l ∧ x ∉ dom (g_score st)
  | OutOfFuel => False
  end.
Proof.
  induction l as [| [x w] l IH]; intros st gr r gr'; cbn [for_each].
  - ret_inv. intros. split; [done |]. split; [apply relax_all_nil | done].
  - unfold bind. destruct (astar_relax end_ c st (x, w) gr) as [[st1 | e |] g1] eqn:E1;
      intros E2 Hc Hcv Hsh;
      apply astar_relax_sim with (bn := bn) in E1 as [-> H1]; auto.
    + destruct H1 as (H1 & Hsh1 & Hc1).
      destruct (relax1_mono _ _ _ _ _ _ _ H1) as (Hv & _ & _ & _ & Hd & _).
      simpl in Hv, Hd.
      apply IH in E2 as [-> H2]; auto; [| by rewrite Hv].
      split; [done |]. destruct r as [st' | e |]; [| | done].
      * destruct H2 as [H2 Hsh2]. split; [by eapply relax_all_cons | done].
      * destruct H2 as (y & w' & Hin & Hy). exists y, w'. split; [by right |].
        by rewrite <- Hd.
    + injection E2 as <- <-. split; [done |]. exists x, w. split; [by left | done].
    + done.
Qed.

Lemma astar_iter_sim st gr r gr' :
  astar_iter end_ st gr = (r, gr') →
  inv0 gr start end_ (aview st) → a_shape gr end_ st →
  gr' = gr ∧
  match r with
  | Ok c => astep gr end_ (hR gr end_) true (aview st) (ctl_map aview c) ∧
            a_shape gr end_ (ctl_state c)
  | Raise _ => ∃ n x w, edge gr n x w ∧ x ∉ dom (nodes gr)
  | OutOfFuel => False
  end.
Proof.
  unfold astar_iter. intros E Hinv Hsh. revert E.
  destruct (heappop (a_pq st)) as [[[f n] pq'] |] eqn:Ep.
  - destruct (a_pop_sim _ _ _ _ _ Ep Hsh) as [Hpop Hsub].
    assert (Hsh' : ∀ S, a_shape gr end_
              (mkA pq' (g_score st) (f_score st) (a_previous st) S)).
    { intros S f0 n0 Hin. apply Hsh. by apply Hsub. }
    cbv zeta. cbn [a_visited g_score a_pq a_previous f_score].
    destruct (decide (n ∈ a_visited st)) as [Hv | Hv].
    { ret_inv. split; [done |]. split; [| apply Hsh'].
      by eapply (astep_skip _ _ _ _ (aview st)). }
    destruct (decide (n = end_)) as [He | He].
    { ret_inv. split; [done |]. split; [| apply Hsh'].
      by eapply (astep_goal _ _ _ _ (aview st)). }
    destruct (i_q_ge _ _ _ _ Hinv (entry_cost (f, n)).1 n) as (bn & Hbn & Hle).
    { apply (is_pop_elem _ _ _ _ _ Hpop). by left. }
    simpl in Hbn.
    unfold bind at 1. rewrite get_neighbors_run. unfold bind at 1.
    destruct (for_each _ _ _ gr) as [[st3 | e |] g1] eqn:Ef;
      apply astar_for_each_sim with (bn := bn) in Ef as [-> Hf];
      try done; try (simpl; set_solver); try apply Hsh'.
    + ret_inv. split; [done |]. destruct Hf as [Hf Hsh3]. split; [| done].
      eapply (astep_expand _ _ _ _ (aview st) _ n (map entry_cost pq') bn bn);
        eauto. reflexivity.
    + ret_inv. split; [done |].
      destruct Hf as (x & w & Hin & Hx). exists n, x, w. split; [done |].
      simpl in Hx. by rewrite <- (i_dom_cost _ _ _ _ Hinv).
  - ret_inv. split; [done |]. split; [| done]. apply astep_empty.
    apply heappop_none in Ep. unfold aview; simpl. by rewrite Ep.
Qed.

Lemma astar_loop_sim fuel :
  ∀ st gr r gr',
  astar_loop fuel end_ st gr = (r, gr') →
  inv_basic gr start end_ (aview st) → a_shape gr end_ st →
  gr' = gr ∧
  match r with
  | Ok st' => arun gr end_ (hR gr end_) true (aview st) (aview st')
  | Raise _ => ∃ n x w, edge gr n x w ∧ x ∉ dom (nodes gr)
  | OutOfFuel => (fuel ≤ measure gr (aview st))%nat
  end.
Proof.
  induction fuel as [| fuel IH]; intros st gr r gr' E Hinv Hsh; simpl in E.
  - injection E as <- <-. split; [done | lia].
  - unfold bind in E.
    destruct (astar_iter end_ st gr) as [[c | e |] g1] eqn:Ei;
      apply astar_iter_sim in Ei as [-> Hi]; try apply Hinv; try done.
    + destruct Hi as [Hi Hsh1]. destruct c as [st1 | st1]; simpl in Hi, Hsh1.
      * pose proof (inv_basic_step _ _ _ _ _ _ _ Hinv Hi) as Hinv1.
        apply IH in E as [-> Hr]; [| done | done]. split; [done |].
        destruct r as [st' | e |].
        -- by eapply arun_continue.
        -- done.
        -- pose proof (astep_measure _ _ _ _ _ _ Hi). lia.
      * injection E as <- <-. split; [done |]. by apply arun_break.
    + injection E as <- <-. by split.
Qed.

End AstarSim.

(** ** After the loop *)

Lemma dijkstra_absent fuel s e g :
  s ∉ dom (nodes g) ∨ e ∉ dom (nodes g) → dijkstra fuel s e g = (Ok (None, Inf), g).
Proof.
  intros H. unfold dijkstra, bind, gets. by destruct (decide _).
Qed.

Lemma dijkstra_present fuel s e g :
  s ∈ dom (nodes g) → e ∈ dom (nodes g) →
  dijkstra fuel s e g =
  bind (dijkstra_loop fuel e (dijkstra_init (nodes g) s))
       (λ st, finish fuel (distances st) (d_previous st) e) g.
Proof.
  intros Hs He. unfold dijkstra. unfold bind at 1. unfold gets at 1. cbv beta iota.
  destruct (decide _) as [[? | ?] | _]; done.
Qed.

Lemma astar_absent fuel s e g :
  s ∉ dom (nodes g) ∨ e ∉ dom (nodes g) → astar fuel s e g = (Ok (None, Inf), g).
Proof.
  intros H. unfold astar, bind, gets. by destruct (decide _).
Qed.

Lemma astar_present fuel s e g :
  s ∈ dom (nodes g) → e ∈ dom (nodes g) →
  astar fuel s e g =
  bind (astar_loop fuel e
          (astar_init (nodes g) s (distance_of g s e) (distance_of g s e)))
       (λ st, finish fuel (g_score st) (a_previous st) e) g.
Proof.
  intros Hs He. unfold astar. unfold bind at 1. unfold gets at 1. cbv beta iota.
  destruct (decide _) as [[? | ?] | _]; [done | done |].
  unfold bind at 1. rewrite heuristic_run.
  unfold bind at 1. by rewrite heuristic_run.
Qed.


Lemma finish_chain fuel cm pv e g d l :
  cm !! e = Some (Fin d) → chain pv e l → (length l < fuel)%nat →
  finish fuel cm pv e g = (Ok (Some (reverse (e :: l)), Fin d), g).
Proof.
  intros H Hc Hl. unfold finish. unfold bind at 1. rewrite (getitem_ok _ _ _ g H).
  cbn [is_inf]. cbv beta iota. unfold bind.
  by rewrite (reconstruct_chain _ _ _ Hc fuel [] g Hl).
Qed.

Lemma finish_ok_inv fuel cm pv e g p c g' :
  finish fuel cm pv e g = (Ok (p, c), g') →
  (p = None ∧ c = Inf ∧ cm !! e = Some Inf) ∨
  (∃ d l, p = Some (reverse (e :: l)) ∧ c = Fin d ∧ cm !! e = Some (Fin d) ∧
          chain pv e l).
Proof.
  unfold finish. unfold bind at 1.
  destruct (getitem cm e g) as [[de | ex |] g1] eqn:Eg; [| done | done].
  apply getitem_inv in Eg as [-> He].
  destruct de as [d |]; cbn [is_inf]; cbv beta iota.
  - unfold bind.
    destruct (reconstruct fuel pv (Some e) [] g) as [[path | ex |] g1] eqn:Er; [| done | done].
    apply reconstruct_inv in Er as (l & Hl & ->).
    intros [= <- <- <-]. right. exists d, l. eauto.
  - intros [= <- <- <-]. by left.
Qed.

Lemma reconstruct_no_raise pv :
  (∀ n c, pv !! n = Some (Some c) → c ∈ dom pv) →
  ∀ fuel n path g ex, n ∈ dom pv →
  (reconstruct fuel pv (Some n) path g).1 ≠ Raise ex.
Proof.
  intros Hcl. induction fuel as [| fuel IH]; intros n path g ex Hn; simpl; [done |].
  apply elem_of_dom in Hn as [p Hp].
  unfold bind. rewrite (getitem_ok _ _ _ g Hp).
  destruct p as [c |]; [apply IH; eauto |].
  by destruct fuel.
Qed.

Lemma finish_no_raise fuel cm pv e g ex :
  e ∈ dom cm → e ∈ dom pv →
  (∀ n c, pv !! n = Some (Some c) → c ∈ dom pv) →
  (finish fuel cm pv e g).1 ≠ Raise ex.
Proof.
  intros Hc Hp Hcl. apply elem_of_dom in Hc as [de Hde].
  unfold finish. unfold bind at 1. rewrite (getitem_ok _ _ _ g Hde).
  destruct (is_inf de); [done |].
  pose proof (reconstruct_no_raise pv Hcl fuel e [] g) as Hr.
  unfold bind. destruct (reconstruct fuel pv (Some e) [] g) as [[path | ex' |] g1];
    simpl in *; try done. intros [= ->]. by eapply Hr.
Qed.

(** What the state in which the loop stops tells about the result. *)
Section Final.
Context (g : Graph) (start end_ : string).

Lemma break_same h skipv v vf :
  astep g end_ h skipv v (Break vf) → cost vf = cost v ∧ prev vf = prev v.
Proof. by inversion 1. Qed.

Lemma inv0_vis_dom v n : inv0 g start end_ v → n ∈ vis v → n ∈ dom (nodes g).
Proof.
  intros Hinv Hn. rewrite <- (i_dom_cost _ _ _ _ Hinv).
  destruct (i_vis_fin _ _ _ _ Hinv _ Hn) as (d & Hd). apply elem_of_dom. eauto.
Qed.

Lemma inv0_prev_closed v n c :
  inv0 g start end_ v → prev v !! n = Some (Some c) → c ∈ dom (prev v).
Proof.
  intros Hinv Hp. rewrite (i_dom_prev _ _ _ _ Hinv).
  destruct (i_prev_edge _ _ _ _ Hinv _ _ Hp) as (_ & Hc & _).
  by eapply inv0_vis_dom.
Qed.



End Final.

(** ** Potentials that are consistent *)









(** ** The first state of each loop *)

Lemma dijkstra_init_inv g s e h :
  s ∈ dom (nodes g) →
  let v := dview (dijkstra_init (nodes g) s) in
  inv_basic g s e v ∧ inv_opt g h v ∧ inv_chain v.
Proof. intros Hs. apply (init_view g s e h 0); [done | reflexivity]. Qed.

Lemma astar_init_inv g s e h :
  s ∈ dom (nodes g) →
  let st := astar_init (nodes g) s (distance_of g s e) (distance_of g s e) in
  inv_basic g s e (aview st) ∧ inv_opt g h (aview st) ∧ inv_chain (aview st) ∧
  a_shape g e st.
Proof.
  intros Hs st.
  pose proof (init_view g s e h (rat (distance_of g s e)) Hs) as H.
  rewrite distance_of_rat in H. specialize (H ltac:(reflexivity)).
  unfold st, aview, astar_init, entry_cost; simpl. rewrite distance_of_rat.
  destruct H as (H1 & H2 & H3).
  split; [exact H1 |]. split; [exact H2 |]. split; [exact H3 |].
  intros f n Hin. simpl in Hin. apply list_elem_of_singleton in Hin. injection Hin as -> ->.
  eexists. split; [reflexivity | apply hR_rad].
Qed.

Lemma measure_init g (q0 : list (Q * string)) cm pv :
  measure g (mkV q0 cm pv ∅) = (length q0 + edge_count g)%nat.
Proof.
  unfold measure, edge_count; simpl. by rewrite difference_empty_L.
Qed.

(** ** Where each loop stops *)

Lemma arun_final_basic g s e h skipv v0 vf :
  arun g e h skipv v0 vf → inv_basic g s e v0 →
  ∃ v, inv_basic g s e v ∧ astep g e h skipv v (Break vf).
Proof.
  intros Hr H0. apply (arun_last _ _ _ _ (inv_basic g s e) _ _ Hr H0).
  intros v v' Hv Hs. by eapply inv_basic_step.
Qed.

(** ** What a whole call returns *)

Section Outcome.
Context (g : Graph) (s e : string).


Lemma dijkstra_loop_outcome fuel r g' :
  s ∈ dom (nodes g) →
  dijkstra_loop fuel e (dijkstra_init (nodes g) s) g = (r, g') →
  g' = g ∧
  match r with
  | Ok st => arun g e hzero false (dview (dijkstra_init (nodes g) s)) (dview st)
  | Raise _ => ∃ n x w, edge g n x w ∧ x ∉ dom (nodes g)
  | OutOfFuel => (fuel ≤ edge_count g + 1)%nat
  end.
Proof.
  intros Hs E. destruct (dijkstra_init_inv g s e hzero Hs) as (Hb & _).
  apply (dijkstra_loop_sim s e) in E as [-> H]; [| done]. split; [done |].
  destruct r; try done. unfold dijkstra_init, dview in H. simpl in H.
  rewrite measure_init in H. simpl in H. lia.
Qed.

Lemma astar_loop_outcome fuel r g' :
  s ∈ dom (nodes g) →
  astar_loop fuel e (astar_init (nodes g) s (distance_of g s e) (distance_of g s e)) g
  = (r, g') →
  g' = g ∧
  match r with
  | Ok st => arun g e (hR g e) true
               (aview (astar_init (nodes g) s (distance_of g s e) (distance_of g s e)))
               (aview st)
  | Raise _ => ∃ n x w, edge g n x w ∧ x ∉ dom (nodes g)
  | OutOfFuel => (fuel ≤ edge_count g + 1)%nat
  end.
Proof.
  intros Hs E. destruct (astar_init_inv g s e hzero Hs) as (Hb & _ & _ & Hsh).
  apply (astar_loop_sim s e) in E as [-> H]; [| done | done]. split; [done |].
  destruct r; try done. unfold astar_init, aview in H. simpl in H.
  rewrite measure_init in H. simpl in H. lia.
Qed.




End Outcome.

(** ** Predecessor chains are walks back to the start *)

Lemma chain_pair pv n l :
  chain pv n l →
  ∀ j a b, (n :: l) !! j = Some a → (n :: l) !! S j = Some b →
  pv !! a = Some (Some b).
Proof.
  induction 1 as [n Hn | n c l Hn Hc IH]; intros j a b Ha Hb.
  - by destruct j.
  - destruct j as [| j]; simpl in *.
    + by injection Ha as <-; injection Hb as <-.
    + eauto.
Qed.

Lemma chain_start g s e v n l :
  inv0 g s e v → chain (prev v) n l →
  (∃ d, cost v !! n = Some (Fin d)) → last (n :: l) = Some s.
Proof.
  intros Hinv. induction 1 as [n Hn | n c l Hn Hc IH]; intros (d & Hd).
  - destruct (i_fin_prev _ _ _ _ Hinv _ _ Hd) as [-> | (c & Hc)]; [done | congruence].
  - rewrite last_cons_cons. apply IH.
    destruct (i_prev_edge _ _ _ _ Hinv _ _ Hn) as (_ & Hv & _).
    by apply (i_vis_fin _ _ _ _ Hinv).
Qed.

Lemma chain_edges g s e v n l :
  inv0 g s e v → chain (prev v) n l → edges_along g (reverse (n :: l)).
Proof.
  intros Hinv Hc i u w Hu Hw.
  apply reverse_lookup_Some in Hu as [Hu Hi].
  apply reverse_lookup_Some in Hw as [Hw Hi'].
  replace (length (n :: l) - S i)%nat with (S (length (n :: l) - S (S i))) in Hu by lia.
  pose proof (chain_pair _ _ _ Hc _ _ _ Hw Hu) as Hp.
  by destruct (i_prev_edge _ _ _ _ Hinv _ _ Hp) as (He & _).
Qed.

(** What a returned path is, from the state in which the loop stopped. *)
Lemma finish_path g s e h skipv v vf fuel path c g' :
  inv0 g s e v → astep g e h skipv v (Break vf) →
  finish fuel (cost vf) (prev vf) e g = (Ok (Some path, c), g') →
  head path = Some s ∧ last path = Some e ∧ edges_along g path ∧ NoDup path.
Proof.
  intros Hinv Hb Hfin. destruct (break_same _ _ _ _ _ _ Hb) as [Ec Ep].
  rewrite Ec, Ep in Hfin.
  apply finish_ok_inv in Hfin as [(? & _) | (d & l & [= ->] & -> & Hd & Hl)]; [done |].
  split; [| split; [| split]].
  - rewrite head_reverse. eapply chain_start; eauto.
  - by rewrite last_reverse.
  - by eapply chain_edges.
  - rewrite reverse_Permutation. by eapply chain_NoDup.
Qed.

(** ** Settled keys stay as they are *)








Section Stable.
Context (g : Graph) (s e : string).





End Stable.

(** ** Settling conditions on a given graph by evaluation *)










Lemma constructed_seq {A B} (m : M A) (k : M B) :
  (∀ g, constructed g → constructed (m g).2) →
  (∀ g, constructed g → constructed (k g).2) →
  ∀ g, constructed g → constructed ((m ;;; k) g).2.
Proof.
  intros Hm Hk g Hg. unfold bind. specialize (Hm g Hg).
  destruct (m g) as [[a | ex |] g1]; simpl in *; auto.
Qed.

Ltac constructed_tac :=
  repeat match goal with
    | |- constructed (bind _ _ _).2 =>
        apply constructed_seq; [intros ? ? | intros ? ? |]
    | |- constructed (add_node _ _ _ _ _).2 => apply constructed_add_node
    | |- constructed (add_edge _ _ _ _ _ _).2 => apply constructed_add_edge
    | |- constructed Graph_init => apply constructed_init
    | |- constructed _ => assumption
    end.

Lemma constructed_diamond : constructed diamond.
Proof. unfold diamond, diamond_build. constructed_tac. Qed.


Lemma constructed_downhill : constructed downhill.
Proof. unfold downhill, downhill_build. constructed_tac. Qed.

Lemma constructed_town : constructed town.
Proof. unfold town, town_build. constructed_tac. Qed.






(** * The claims *)

Ltac in_dom :=
  match goal with |- ?P => apply (bool_decide_unpack P); vm_compute; exact I end.

Lemma dijkstra_loop_goal_first f k g :
  dijkstra_loop (S f) k (dijkstra_init (nodes g) k) g
  = (Ok (mkD [] (<[k := Fin 0]> ((λ _, Inf) <$> nodes g))
             ((λ _, None) <$> nodes g) ({[k]} ∪ ∅)), g).
Proof.
  simpl. unfold bind, dijkstra_iter, dijkstra_init. simpl.
  destruct (decide (k ∈ (∅ : gset string))) as [Hin | _]; [set_solver |].
  by destruct (decide (k = k)).
Qed.

Lemma astar_loop_goal_first f k g h1 h2 :
  astar_loop (S f) k (astar_init (nodes g) k h1 h2) g
  = (Ok (mkA [] (<[k := Fin 0]> ((λ _, Inf) <$> nodes g))
             (<[k := Fin h2]> ((λ _, Inf) <$> nodes g))
             ((λ _, None) <$> nodes g) ({[k]} ∪ ∅)), g).
Proof.
  simpl. unfold bind, astar_iter, astar_init. simpl.
  destruct (decide (k ∈ (∅ : gset string))) as [Hin | _]; [set_solver |].
  by destruct (decide (k = k)).
Qed.

(** C3: on every graph and for every key [k] of its node map, [dijkstra]
    and [astar] from [k] to [k] both return the one-key path [[k]] with cost
    exactly 0; one unit of fuel is enough. *)
Theorem same_start_end g k fuel :
  k ∈ dom (nodes g) → (1 ≤ fuel)%nat →
  (dijkstra fuel k k g).1 = Ok (Some [k], Fin 0) ∧
  (astar fuel k k g).1 = Ok (Some [k], Fin 0).
Proof.
  intros Hk Hf. destruct fuel as [| f]; [lia |].
  assert (Hp : ((λ _, None) <$> nodes g : gmap string (option string)) !! k = Some None).
  { rewrite lookup_fmap. apply elem_of_dom in Hk as [n ->]. done. }
  split.
  - rewrite dijkstra_present by done. unfold bind.
    rewrite dijkstra_loop_goal_first. cbn [distances d_previous].
    rewrite (finish_chain _ _ _ _ _ 0 []); [done | | | simpl; lia].
    + by rewrite lookup_insert_eq.
    + by apply chain_nil.
  - rewrite astar_present by done. unfold bind.
    rewrite astar_loop_goal_first. cbn [g_score a_previous].
    rewrite (finish_chain _ _ _ _ _ 0 []); [done | | | simpl; lia].
    + by rewrite lookup_insert_eq.
    + by apply chain_nil.
Qed.

Lemma same_start_end_witness :
  (dijkstra 1 "A" "A" diamond).1 = Ok (Some ["A"], Fin 0) ∧
  (astar 1 "A" "A" diamond).1 = Ok (Some ["A"], Fin 0).
Proof. apply (same_start_end diamond "A" 1); [in_dom | lia]. Defined.

(** C4: on the diamond of the unit tests (A(0,0), B(1,1), C(1,-1), D(2,0);
    two-way streets A-B 1, A-C 2, B-D 3, C-D 1) both [dijkstra] and [astar]
    from A to D return exactly the path A, C, D with cost 3, for every
    amount of fuel from 4 on. *)
Theorem diamond_shortest_path :
  ∀ k, (dijkstra (4 + k) "A" "D" diamond).1 = Ok (Some ["A"; "C"; "D"], Fin 3) ∧
       (astar (4 + k) "A" "D" diamond).1 = Ok (Some ["A"; "C"; "D"], Fin 3).
Proof. intros k. split; vm_compute; reflexivity. Qed.

(** C9: neither search changes the graph it is given: whatever the graph,
    the keys, the fuel and the outcome (a result, a [KeyError] or no fuel
    left), the graph after the call, node map and edge map alike, is the
    graph before it. *)
Theorem search_keeps_graph fuel s e g :
  (dijkstra fuel s e g).2 = g ∧ (astar fuel s e g).2 = g.
Proof. split; [apply readonly_dijkstra | apply readonly_astar]. Qed.

(** C10: when the key [k] already has a node [n] in the graph, [add_node]
    with any coordinates and name returns [n] and leaves the graph as it
    was: same number of nodes, and [k] still maps to [n], whose coordinates
    and display name are those of the first insertion. *)
Theorem add_node_existing g k x y name n :
  nodes g !! k = Some n →
  add_node k x y name g = (Ok n, g) ∧
  size (nodes (add_node k x y name g).2) = size (nodes g) ∧
  nodes (add_node k x y name g).2 !! k = Some n.
Proof. intros Hn. rewrite add_node_run, Hn. auto. Qed.

Lemma add_node_existing_witness :
  add_node "A" 5 7 "elsewhere" diamond = (Ok (mkNode "A" 0 0 "A"), diamond) ∧
  size (nodes (add_node "A" 5 7 "elsewhere" diamond).2) = size (nodes diamond) ∧
  nodes (add_node "A" 5 7 "elsewhere" diamond).2 !! "A" = Some (mkNode "A" 0 0 "A").
Proof.
  apply (add_node_existing diamond "A" 5 7 "elsewhere" (mkNode "A" 0 0 "A")).
  vm_compute. reflexivity.
Defined.

Lemma dijkstra_no_key_error g fuel s e :
  wf g → (dijkstra fuel s e g).1 ≠ Raise KeyError.
Proof.
  intros Hwf.
  destruct (decide (s ∈ dom (nodes g) ∧ e ∈ dom (nodes g))) as [[Hs He] | Hn].
  - rewrite dijkstra_present by done. unfold bind.
    destruct (dijkstra_loop _ _ _ g) as [[st | ex |] g1] eqn:El;
      apply (dijkstra_loop_outcome g s e) in El as [-> Hl]; try done.
    + destruct (dijkstra_init_inv g s e hzero Hs) as (Hb & _).
      destruct (arun_final_basic _ s _ _ _ _ _ Hl Hb) as (v & [Hinv Hex] & Hbreak).
      destruct (break_same _ _ _ _ _ _ Hbreak) as [Ec Ep]. simpl in Ec, Ep.
      apply finish_no_raise.
      * rewrite Ec, (i_dom_cost _ _ _ _ Hinv). done.
      * rewrite Ep, (i_dom_prev _ _ _ _ Hinv). done.
      * rewrite Ep. intros n c Hp. exact (inv0_prev_closed g s e v n c Hinv Hp).
    + destruct Hl as (n & x & w & Hedge & Hx). exfalso. apply Hx.
      by eapply wf_edge_dest.
  - rewrite dijkstra_absent; [done |].
    destruct (decide (s ∈ dom (nodes g))); [right | left]; tauto.
Qed.

Lemma astar_no_key_error g fuel s e :
  wf g → (astar fuel s e g).1 ≠ Raise KeyError.
Proof.
  intros Hwf.
  destruct (decide (s ∈ dom (nodes g) ∧ e ∈ dom (nodes g))) as [[Hs He] | Hn].
  - rewrite astar_present by done. unfold bind.
    destruct (astar_loop _ _ _ g) as [[st | ex |] g1] eqn:El;
      apply (astar_loop_outcome g s e) in El as [-> Hl]; try done.
    + destruct (astar_init_inv g s e hzero Hs) as (Hb & _).
      destruct (arun_final_basic _ s _ _ _ _ _ Hl Hb) as (v & [Hinv Hex] & Hbreak).
      destruct (break_same _ _ _ _ _ _ Hbreak) as [Ec Ep]. simpl in Ec, Ep.
      apply finish_no_raise.
      * rewrite Ec, (i_dom_cost _ _ _ _ Hinv). done.
      * rewrite Ep, (i_dom_prev _ _ _ _ Hinv). done.
      * rewrite Ep. intros n c Hp. exact (inv0_prev_closed g s e v n c Hinv Hp).
    + destruct Hl as (n & x & w & Hedge & Hx). exfalso. apply Hx.
      by eapply wf_edge_dest.
  - rewrite astar_absent; [done |].
    destruct (decide (s ∈ dom (nodes g))); [right | left]; tauto.
Qed.

(** C6: in a graph built only by [add_node] and [add_edge], the destination
    of every stored edge is a key of the node map; and on such a graph no
    lookup made by [dijkstra] or [astar] (cost map, predecessor map, score
    maps) fails: for every fuel and every pair of keys the call does not
    end in [KeyError]. *)
Theorem built_graph_lookups_succeed g :
  constructed g →
  (∀ u l ed, edges g !! u = Some l → ed ∈ l → to_node ed ∈ dom (nodes g)) ∧
  (∀ fuel s e, (dijkstra fuel s e g).1 ≠ Raise KeyError ∧
               (astar fuel s e g).1 ≠ Raise KeyError).
Proof.
  intros Hc. pose proof (constructed_wf g Hc) as Hwf. split.
  - apply (wf_dest _ Hwf).
  - intros fuel s e. split; [by apply dijkstra_no_key_error | by apply astar_no_key_error].
Qed.

Lemma built_graph_lookups_succeed_witness :
  (∀ u l ed, edges diamond !! u = Some l → ed ∈ l → to_node ed ∈ dom (nodes diamond)) ∧
  (∀ fuel s e, (dijkstra fuel s e diamond).1 ≠ Raise KeyError ∧
               (astar fuel s e diamond).1 ≠ Raise KeyError).
Proof. apply (built_graph_lookups_succeed diamond). apply constructed_diamond. Defined.

Lemma dijkstra_path g fuel s e path c :
  (dijkstra fuel s e g).1 = Ok (Some path, c) →
  head path = Some s ∧ last path = Some e ∧ edges_along g path ∧ NoDup path.
Proof.
  destruct (decide (s ∈ dom (nodes g) ∧ e ∈ dom (nodes g))) as [[Hs He] | Hn].
  - rewrite dijkstra_present by done. unfold bind.
    destruct (dijkstra_loop _ _ _ g) as [[st | ex |] g1] eqn:El; try done.
    apply (dijkstra_loop_outcome g s e) in El as [-> Hl]; [| done].
    destruct (dijkstra_init_inv g s e hzero Hs) as (Hb & _).
    destruct (arun_final_basic _ s _ _ _ _ _ Hl Hb) as (v & [Hinv Hex] & Hbreak).
    destruct (finish _ _ _ _ g) as [r g2] eqn:Ef. simpl. intros ->.
    eapply finish_path; eauto.
  - rewrite dijkstra_absent; [done |].
    destruct (decide (s ∈ dom (nodes g))); [right | left]; tauto.
Qed.

Lemma astar_path g fuel s e path c :
  (astar fuel s e g).1 = Ok (Some path, c) →
  head path = Some s ∧ last path = Some e ∧ edges_along g path ∧ NoDup path.
Proof.
  destruct (decide (s ∈ dom (nodes g) ∧ e ∈ dom (nodes g))) as [[Hs He] | Hn].
  - rewrite astar_present by done. unfold bind.
    destruct (astar_loop _ _ _ g) as [[st | ex |] g1] eqn:El; try done.
    apply (astar_loop_outcome g s e) in El as [-> Hl]; [| done].
    destruct (astar_init_inv g s e hzero Hs) as (Hb & _).
    destruct (arun_final_basic _ s _ _ _ _ _ Hl Hb) as (v & [Hinv Hex] & Hbreak).
    destruct (finish _ _ _ _ g) as [r g2] eqn:Ef. simpl. intros ->.
    eapply finish_path; eauto.
  - rewrite astar_absent; [done |].
    destruct (decide (s ∈ dom (nodes g))); [right | left]; tauto.
Qed.

(** C8: whenever [dijkstra] or [astar] returns a path, whatever the graph,
    the keys and the fuel, that path is a walk of the graph from start to
    end: its first key is the start, its last key is the end, each key is
    joined to the next by a stored edge in that direction, and no key occurs
    twice (the predecessor chain followed back from the end is acyclic and
    stops at the start). *)
Theorem returned_path_is_walk g fuel s e path c :
  (dijkstra fuel s e g).1 = Ok (Some path, c) ∨
  (astar fuel s e g).1 = Ok (Some path, c) →
  head path = Some s ∧ last path = Some e ∧ edges_along g path ∧ NoDup path.
Proof. intros [H | H]; [by eapply dijkstra_path | by eapply astar_path]. Qed.

Lemma returned_path_is_walk_witness :
  head ["A"; "C"; "D"] = Some "A" ∧ last ["A"; "C"; "D"] = Some "D" ∧
  edges_along diamond ["A"; "C"; "D"] ∧ NoDup ["A"; "C"; "D"].
Proof.
  apply (returned_path_is_walk diamond 4 "A" "D" ["A"; "C"; "D"] (Fin 3)).
  left. vm_compute. reflexivity.
Defined.










(** ** A street of negative weight *)












(** * Further properties *)

(** ** What add_node and add_edge store *)

Lemma ensure_node_run id g :
  (if decide (id ∉ dom (nodes g)) then add_node id 0 0 "" ;;; ret tt else ret tt) g
  = (Ok tt, (add_node id 0 0 "" g).2).
Proof.
  rewrite add_node_run. destruct (decide (id ∉ dom (nodes g))) as [Hn | Hn].
  - unfold bind. rewrite add_node_run.
    apply not_elem_of_dom in Hn. by rewrite Hn.
  - apply dec_stable in Hn. apply elem_of_dom in Hn as [n Hn]. by rewrite Hn.
Qed.

Lemma add_edge_run from to w name bi g :
  add_edge from to w name bi g =
  (append_edge from (mkEdge from to w name) ;;;
   if bi then append_edge to (mkEdge to from w name) else ret tt)
    (add_node to 0 0 "" (add_node from 0 0 "" g).2).2.
Proof.
  unfold add_edge.
  unfold bind at 1. unfold gets at 1. cbv beta iota.
  unfold bind at 1. rewrite ensure_node_run.
  unfold bind at 1. unfold gets at 1. cbv beta iota.
  unfold bind at 1. by rewrite ensure_node_run.
Qed.

Lemma neighbors_out_edges g u :
  neighbors g u = map (λ e, (to_node e, weight e)) (out_edges g u).
Proof. unfold neighbors, out_edges. by destruct (edges g !! u). Qed.

Lemma add_node_effect id x y name g :
  same_keys g →
  let g' := (add_node id x y name g).2 in
  same_keys g' ∧
  (∀ k, out_edges g' k = out_edges g k) ∧
  ∀ k, nodes g' !! k =
       match nodes g !! k with
       | Some n => Some n
       | None => if decide (k = id) then Some (Node_init id x y name) else None
       end.
Proof.
  unfold same_keys. intros Hd. rewrite add_node_run.
  destruct (nodes g !! id) as [n |] eqn:E; simpl.
  - split; [done |]. split; [done |]. intros k.
    destruct (nodes g !! k) eqn:Ek; [done |]. destruct (decide (k = id)); congruence.
  - split; [by rewrite !dom_insert_L, Hd |]. split.
    + intros k. unfold out_edges. simpl. destruct (decide (k = id)) as [-> | Hne].
      * rewrite lookup_insert_eq.
        assert (edges g !! id = None) as ->; [| done].
        apply not_elem_of_dom. rewrite Hd. by apply not_elem_of_dom.
      * by rewrite lookup_insert_ne.
    + intros k. destruct (decide (k = id)) as [-> | Hne].
      * by rewrite lookup_insert_eq, E.
      * rewrite lookup_insert_ne by done. by destruct (nodes g !! k).
Qed.

Lemma append_edge_effect k0 e g :
  same_keys g → k0 ∈ dom (nodes g) →
  let r := append_edge k0 e g in
  r.1 = Ok tt ∧ same_keys r.2 ∧ nodes r.2 = nodes g ∧
  ∀ k, out_edges r.2 k = out_edges g k ++ if decide (k = k0) then [e] else [].
Proof.
  unfold same_keys. intros Hd Hk. rewrite append_edge_run.
  rewrite <- Hd in Hk. pose proof Hk as Hk'. apply elem_of_dom in Hk as [l Hl]. rewrite Hl. simpl.
  split; [done |]. split; [| split; [done |]].
  - rewrite dom_insert_L, <- Hd. set_solver.
  - intros k. unfold out_edges. simpl. destruct (decide (k = k0)) as [-> | Hne].
    + by rewrite lookup_insert_eq, Hl.
    + rewrite lookup_insert_ne by done. by rewrite app_nil_r.
Qed.

Lemma add_edge_effect from to w name bi g :
  same_keys g →
  let r := add_edge from to w name bi g in
  r.1 = Ok tt ∧ same_keys r.2 ∧
  (∀ k, out_edges r.2 k =
        out_edges g k
        ++ (if decide (k = from) then [mkEdge from to w name] else [])
        ++ (if bi then if decide (k = to) then [mkEdge to from w name] else [] else [])) ∧
  (∀ k, nodes r.2 !! k =
        match nodes g !! k with
        | Some n => Some n
        | None => if decide (k = from ∨ k = to) then Some (Node_init k 0 0 "") else None
        end).
Proof.
  intros Hd. rewrite add_edge_run.
  destruct (add_node_effect from 0 0 "" g Hd) as (Hd1 & Hn1 & Hl1).
  set (g1 := (add_node from 0 0 "" g).2) in *.
  destruct (add_node_effect to 0 0 "" g1 Hd1) as (Hd2 & Hn2 & Hl2).
  set (g2 := (add_node to 0 0 "" g1).2) in *.
  assert (Hnodes : ∀ k, nodes g2 !! k =
        match nodes g !! k with
        | Some n => Some n
        | None => if decide (k = from ∨ k = to) then Some (Node_init k 0 0 "") else None
        end).
  { intros k. rewrite Hl2, Hl1. destruct (nodes g !! k); [done |].
    destruct (decide (k = from)) as [-> | ?].
    - by rewrite decide_True by auto.
    - destruct (decide (k = to)) as [-> | ?].
      + by rewrite decide_True by auto.
      + by rewrite decide_False by tauto. }
  assert (Hf : from ∈ dom (nodes g2)).
  { apply elem_of_dom. rewrite Hnodes. destruct (nodes g !! from); [eauto |].
    rewrite decide_True by auto. eauto. }
  assert (Ht : to ∈ dom (nodes g2)).
  { apply elem_of_dom. rewrite Hnodes. destruct (nodes g !! to); [eauto |].
    rewrite decide_True by auto. eauto. }
  destruct (append_edge_effect from (mkEdge from to w name) g2 Hd2 Hf) as (E3 & Hd3 & Hn3 & Hl3).
  unfold bind at 1.
  destruct (append_edge from (mkEdge from to w name) g2) as [r3 g3]. simpl in *. subst r3.
  destruct bi.
  - rewrite <- Hn3 in Ht.
    destruct (append_edge_effect to (mkEdge to from w name) g3 Hd3 Ht) as (E4 & Hd4 & Hn4 & Hl4).
    destruct (append_edge to (mkEdge to from w name) g3) as [r4 g4]. simpl in *.
    split; [done |]. split; [done |]. split.
    + intros k. by rewrite Hl4, Hl3, Hn2, Hn1, <- app_assoc.
    + intros k. by rewrite Hn4, Hn3.
  - simpl. split; [done |]. split; [done |]. split.
    + intros k. by rewrite Hl3, Hn2, Hn1, app_nil_r.
    + intros k. by rewrite Hn3.
Qed.

Lemma add_edge_neighbors from to w name bi g k :
  same_keys g →
  neighbors (add_edge from to w name bi g).2 k =
  neighbors g k ++ (if decide (k = from) then [(to, w)] else [])
                ++ (if bi then if decide (k = to) then [(from, w)] else [] else []).
Proof.
  intros Hd. destruct (add_edge_effect from to w name bi g Hd) as (_ & _ & Hn & _).
  rewrite !neighbors_out_edges, Hn, !map_app.
  f_equal. f_equal; [by destruct (decide _) | destruct bi; [by destruct (decide _) | done]].
Qed.

(** [add_node] on a key not yet present. *)
Lemma add_node_fresh_run id x y name g :
  nodes g !! id = None →
  let r := add_node id x y name g in
  let node := Node_init id x y name in
  r.1 = Ok node ∧
  get_node id r.2 = (Ok (Some node), r.2) ∧
  get_neighbors id r.2 = (Ok [], r.2) ∧
  size (nodes r.2) = S (size (nodes g)) ∧
  ∀ k, k ≠ id → nodes r.2 !! k = nodes g !! k ∧ edges r.2 !! k = edges g !! k.
Proof.
  intros Hn. rewrite add_node_run, Hn. simpl.
  split; [done |]. split; [| split; [| split]].
  - unfold get_node, bind, gets, ret. simpl. by rewrite lookup_insert_eq.
  - rewrite get_neighbors_run. unfold neighbors. simpl. by rewrite lookup_insert_eq.
  - by rewrite map_size_insert_None.
  - intros k Hk. by rewrite !lookup_insert_ne.
Qed.

(** ** When add_edge raises *)

Lemma add_node_lookup_edges id x y name g k :
  edges (add_node id x y name g).2 !! k =
  if decide (k = id ∧ nodes g !! id = None) then Some [] else edges g !! k.
Proof.
  rewrite add_node_run. destruct (nodes g !! id) as [n |] eqn:E; simpl.
  - rewrite decide_False; [done |]. by intros [_ ?].
  - destruct (decide (k = id)) as [-> | Hne].
    + by rewrite lookup_insert_eq, decide_True.
    + rewrite lookup_insert_ne by done. rewrite decide_False; [done |]. by intros [? _].
Qed.

Lemma add_node_lookup_nodes id x y name g k :
  nodes (add_node id x y name g).2 !! k =
  match nodes g !! k with
  | Some n => Some n
  | None => if decide (k = id) then Some (Node_init id x y name) else None
  end.
Proof.
  rewrite add_node_run. destruct (nodes g !! id) as [n |] eqn:E; simpl.
  - destruct (nodes g !! k) eqn:Ek; [done |]. destruct (decide (k = id)); congruence.
  - destruct (decide (k = id)) as [-> | Hne].
    + by rewrite lookup_insert_eq, E.
    + rewrite lookup_insert_ne by done. by destruct (nodes g !! k).
Qed.

Lemma add_edge_cases from to w name bi g :
  let g2 := (add_node to 0 0 "" (add_node from 0 0 "" g).2).2 in
  add_edge from to w name bi g =
  match edges g2 !! from with
  | None => (Raise KeyError, g2)
  | Some l =>
      let g3 := mkGraph (nodes g2) (<[from := l ++ [mkEdge from to w name]]> (edges g2)) in
      if bi then
        match edges g3 !! to with
        | None => (Raise KeyError, g3)
        | Some l' =>
            (Ok tt, mkGraph (nodes g3) (<[to := l' ++ [mkEdge to from w name]]> (edges g3)))
        end
      else (Ok tt, g3)
  end.
Proof.
  intros g2. rewrite add_edge_run. fold g2.
  unfold bind at 1. rewrite append_edge_run.
  destruct (edges g2 !! from) as [l |]; [| done].
  destruct bi; [| done]. by rewrite append_edge_run.
Qed.

Lemma add_edge_outcome from to w name bi g :
  let r := add_edge from to w name bi g in
  (lacks_edge_list g from → r.1 = Raise KeyError) ∧
  (¬ lacks_edge_list g from → bi = true → lacks_edge_list g to →
     r.1 = Raise KeyError ∧ edge r.2 from to w) ∧
  (¬ lacks_edge_list g from → ¬ (bi = true ∧ lacks_edge_list g to) → r.1 = Ok tt).
Proof.
  unfold lacks_edge_list. cbv zeta. rewrite add_edge_cases. cbv zeta.
  set (g1 := (add_node from 0 0 "" g).2).
  set (g2 := (add_node to 0 0 "" g1).2).
  assert (E2 : ∀ k, edges g2 !! k =
            if decide (k = to ∧ nodes g1 !! to = None) then Some [] else
            if decide (k = from ∧ nodes g !! from = None) then Some [] else edges g !! k).
  { intros k. unfold g2. rewrite add_node_lookup_edges.
    destruct (decide _); [done |]. unfold g1. by rewrite add_node_lookup_edges. }
  assert (N1 : ∀ k, nodes g1 !! k = None ↔ nodes g !! k = None ∧ k ≠ from).
  { intros k. unfold g1. rewrite add_node_lookup_nodes.
    destruct (nodes g !! k); [naive_solver |]. destruct (decide (k = from)); naive_solver. }
  destruct (edges g2 !! from) as [l |] eqn:Ef.
  - (* the forward append succeeds *)
    assert (Hfrom : ¬ (from ∈ dom (nodes g) ∧ from ∉ dom (edges g))).
    { intros [Hn He]. apply not_elem_of_dom in He. apply elem_of_dom in Hn as [n Hn].
      rewrite E2 in Ef. rewrite decide_False in Ef.
      - rewrite decide_False in Ef by (intros [_ ?]; congruence). congruence.
      - intros [-> H1]. apply N1 in H1 as [? _]. congruence. }
    split; [done |].
    set (g3 := mkGraph (nodes g2) (<[from := l ++ [mkEdge from to w name]]> (edges g2))).
    assert (Hfwd : edge g3 from to w).
    { unfold edge, neighbors, g3. simpl. rewrite lookup_insert_eq.
      rewrite map_app. apply elem_of_app. right. simpl. by apply list_elem_of_singleton. }
    destruct bi; [| split; [done | by intros _ _]].
    destruct (edges g3 !! to) as [l' |] eqn:Et; simpl.
    + split; [| done]. intros _ _ [Hn He]. exfalso.
      apply not_elem_of_dom in He. apply elem_of_dom in Hn as [n Hn].
      unfold g3 in Et. simpl in Et.
      assert (to ≠ from).
      { intros ->. apply Hfrom. split; [apply elem_of_dom; eauto | by apply not_elem_of_dom]. }
      rewrite lookup_insert_ne, E2 in Et by done.
      rewrite decide_False in Et by (intros [_ H1]; apply N1 in H1 as [? _]; congruence).
      rewrite decide_False in Et by (by intros [? _]). congruence.
    + split.
      * intros _ _ _. split; [done | exact Hfwd].
      * intros _ Hno. exfalso. apply Hno. split; [done |].
        unfold g3 in Et. simpl in Et.
        assert (Hne : to ≠ from) by (intros ->; by rewrite lookup_insert_eq in Et).
        rewrite lookup_insert_ne, E2 in Et by done.
        destruct (decide (to = to ∧ nodes g1 !! to = None)) as [_ | Hd]; [done |].
        rewrite decide_False in Et by (by intros [? _]).
        split; [| by apply not_elem_of_dom].
        apply elem_of_dom. destruct (nodes g !! to) eqn:En; [eauto |].
        destruct Hd. split; [done |]. by apply N1.
  - (* the forward append raises *)
    simpl. rewrite E2 in Ef.
    destruct (decide (from = to ∧ nodes g1 !! to = None)) as [_ | Hd1]; [done |].
    destruct (decide (from = from ∧ nodes g !! from = None)) as [_ | Hd2]; [done |].
    assert (Hl : from ∈ dom (nodes g) ∧ from ∉ dom (edges g)).
    { split; [| by apply not_elem_of_dom].
      apply elem_of_dom. destruct (nodes g !! from) eqn:En; [eauto |]. by destruct Hd2. }
    split; [done |]. split; [by intros [] | by intros []].
Qed.

Lemma grows_edge g g' u v w : grows g g' → edge g u v w → edge g' u v w.
Proof.
  intros [_ Hp]. unfold edge. rewrite !neighbors_out_edges. intros Hin.
  destruct (Hp u) as [l ->]. rewrite map_app. apply elem_of_app. by left.
Qed.

Lemma grows_walk g g' s t c : grows g g' → walk g s t c → walk g' s t c.
Proof.
  intros Hg. induction 1 as [| u v c w Hw IH He]; [apply walk_nil |].
  eapply walk_snoc; [done | by eapply grows_edge].
Qed.

Lemma add_node_grows id x y name g :
  same_keys g → grows g (add_node id x y name g).2.
Proof.
  intros Hd. destruct (add_node_effect id x y name g Hd) as (_ & Hn & Hl).
  split.
  - apply map_subseteq_spec. intros k n Hk. by rewrite Hl, Hk.
  - intros k. by rewrite Hn.
Qed.

Lemma add_edge_grows from to w name bi g :
  same_keys g → grows g (add_edge from to w name bi g).2.
Proof.
  intros Hd. destruct (add_edge_effect from to w name bi g Hd) as (_ & _ & Hn & Hl).
  split.
  - apply map_subseteq_spec. intros k n Hk. by rewrite Hl, Hk.
  - intros k. rewrite Hn. by eexists.
Qed.

Lemma constructed_same_keys g : constructed g → same_keys g.
Proof. intros H. by destruct (constructed_wf g H). Qed.

(** ** Records sit under their own keys *)

Lemma Node_init_filed id x y name :
  node_id (Node_init id x y name) = id ∧
  (node_name (Node_init id x y name) = "" → id = "").
Proof.
  unfold Node_init; simpl. split; [done |]. by destruct (decide (name = "")).
Qed.

Lemma filed_add_node id x y name g : filed g → filed (add_node id x y name g).2.
Proof.
  intros [Hn He]. rewrite add_node_run.
  destruct (nodes g !! id) as [n |] eqn:E; simpl; [done |]. split; simpl.
  - intros k n. destruct (decide (id = k)) as [-> | Hne].
    + rewrite lookup_insert_eq. intros [= <-]. apply Node_init_filed.
    + rewrite lookup_insert_ne by done. auto.
  - intros u l ed. destruct (decide (id = u)) as [-> | Hne].
    + rewrite lookup_insert_eq. intros [= <-] Hin. by apply elem_of_nil in Hin.
    + rewrite lookup_insert_ne by done. eauto.
Qed.

Lemma filed_append_edge k e g :
  filed g → from_node e = k → filed (append_edge k e g).2.
Proof.
  intros [Hn He] Hk. rewrite append_edge_run.
  destruct (edges g !! k) as [l |] eqn:E; simpl; [| done]. split; simpl; [done |].
  intros u l' ed. destruct (decide (k = u)) as [-> | Hne].
  - rewrite lookup_insert_eq. intros [= <-] Hin.
    apply elem_of_app in Hin as [Hin | Hin]; [eauto |].
    by apply list_elem_of_singleton in Hin as ->.
  - rewrite lookup_insert_ne by done. eauto.
Qed.

Lemma filed_add_edge from to w name bi g : filed g → filed (add_edge from to w name bi g).2.
Proof.
  intros Hf. rewrite add_edge_run.
  pose proof (filed_add_node to 0 0 "" _ (filed_add_node from 0 0 "" g Hf)) as H2.
  set (g2 := (add_node to 0 0 "" (add_node from 0 0 "" g).2).2) in *.
  pose proof (filed_append_edge from (mkEdge from to w name) g2 H2 eq_refl) as H3.
  unfold bind at 1.
  destruct (append_edge from (mkEdge from to w name) g2) as [[[] | ex |] g3]; simpl in *; try done.
  destruct bi; [| done].
  by apply (filed_append_edge to (mkEdge to from w name) g3 H3).
Qed.

Lemma constructed_filed g : constructed g → filed g.
Proof.
  induction 1 as [| g id x y name _ IH | g from to w name bi _ IH].
  - split; simpl; intros ? ? ; by rewrite lookup_empty.
  - by apply filed_add_node.
  - by apply filed_add_edge.
Qed.

(** ** Two-way streets *)














(** ** The straight-line distance *)

Section DistanceFacts.
Local Open Scope R_scope.




End DistanceFacts.

(** ** Predecessors form a tree of cheapest routes *)

Section AbstractTree.
Context (g : Graph) (start end_ : string).




End AbstractTree.













(** ** What Graph.__repr__ counts *)

Lemma sum_list_with_ext_in {A} (f h : A → nat) (l : list A) :
  (∀ x, x ∈ l → f x = h x) → sum_list_with f l = sum_list_with h l.
Proof.
  induction l as [| a l IH]; intros H; [done |]. simpl.
  rewrite (H a) by (by left). rewrite IH; [done |]. intros x Hx. apply H. by right.
Qed.

Lemma sum_list_with_add {A} (f h : A → nat) (l : list A) :
  sum_list_with (λ x, f x + h x)%nat l = (sum_list_with f l + sum_list_with h l)%nat.
Proof. induction l as [| a l IH]; simpl; lia. Qed.

Lemma sum_list_with_zero {A} (l : list A) : sum_list_with (λ _, 0%nat) l = 0%nat.
Proof. induction l; simpl; lia. Qed.

Lemma sum_values (m : gmap string (list Edge)) :
  sum_list_with length (map_to_list m).*2
  = sum_list_with (λ k, length (default [] (m !! k))) (elements (dom m)).
Proof.
  induction m as [| i x m Hi IH] using map_ind.
  - by rewrite map_to_list_empty, dom_empty_L, elements_empty.
  - rewrite map_to_list_insert by done. rewrite dom_insert_L.
    rewrite elements_union_singleton by (by apply not_elem_of_dom).
    rewrite fmap_cons. cbn [sum_list_with]. rewrite lookup_insert_eq. cbn [default snd].
    rewrite IH. f_equal.
    apply sum_list_with_ext_in. intros k Hk. apply elem_of_elements in Hk.
    rewrite lookup_insert_ne; [done |]. intros ->. by apply not_elem_of_dom in Hi.
Qed.

Lemma out_degree_out_edges g u : out_degree g u = length (out_edges g u).
Proof. unfold out_degree. by rewrite neighbors_out_edges, length_map. Qed.

Lemma sum_values_edge_count g :
  sum_list_with length (map_to_list (edges g)).*2 = edge_count g.
Proof.
  rewrite sum_values. unfold edge_count. apply sum_list_with_ext_in.
  intros k _. by rewrite out_degree_out_edges.
Qed.

Lemma edge_count_over (X : gset string) g :
  dom (edges g) ⊆ X →
  sum_list_with (λ k, length (out_edges g k)) (elements X) = edge_count g.
Proof.
  intros Hsub.
  assert (E : X = dom (edges g) ∪ X ∖ dom (edges g)).
  { apply set_eq. intros k. destruct (decide (k ∈ dom (edges g))); set_solver. }
  rewrite E at 1. rewrite elements_disj_union by set_solver.
  rewrite sum_list_with_app.
  replace (sum_list_with _ (elements (X ∖ dom (edges g)))) with 0%nat.
  - unfold edge_count. rewrite Nat.add_0_r. apply sum_list_with_ext_in.
    intros k _. by rewrite out_degree_out_edges.
  - symmetry. rewrite (sum_list_with_ext_in _ (λ _, 0%nat)).
    + apply sum_list_with_zero.
    + intros k Hk. apply elem_of_elements in Hk.
      unfold out_edges. assert (edges g !! k = None) as ->; [| done].
      apply not_elem_of_dom. set_solver.
Qed.

Lemma sum_indicator (X : gset string) a :
  a ∈ X →
  sum_list_with (λ k, if decide (k = a) then 1 else 0)%nat (elements X) = 1%nat.
Proof.
  intros Ha.
  assert (E : X = {[a]} ∪ X ∖ {[a]}).
  { apply set_eq. intros k. destruct (decide (k = a)); set_solver. }
  rewrite E. rewrite elements_union_singleton by set_solver. simpl.
  rewrite decide_True by done.
  rewrite (sum_list_with_ext_in _ (λ _, 0%nat)).
  - by rewrite sum_list_with_zero.
  - intros k Hk. apply elem_of_elements in Hk. rewrite decide_False; [done |]. set_solver.
Qed.

Lemma add_node_counts id x y name g :
  same_keys g →
  let g' := (add_node id x y name g).2 in
  size (nodes g') = (size (nodes g) + if decide (id ∈ dom (nodes g)) then 0 else 1)%nat ∧
  edge_count g' = edge_count g.
Proof.
  intros Hd g'. split.
  - unfold g'. rewrite add_node_run. destruct (nodes g !! id) as [n |] eqn:E; simpl.
    + rewrite decide_True by (apply elem_of_dom; eauto). lia.
    + rewrite decide_False by (by apply not_elem_of_dom).
      rewrite map_size_insert_None by done. lia.
  - destruct (add_node_effect id x y name g Hd) as (Hd' & Hn & Hl). fold g' in Hd', Hn, Hl.
    rewrite <- (edge_count_over (dom (edges g')) g').
    2: done.
    rewrite <- (edge_count_over (dom (edges g')) g).
    + apply sum_list_with_ext_in. intros k _. by rewrite Hn.
    + rewrite Hd', Hd. intros k [n Hk]%elem_of_dom. apply elem_of_dom.
      rewrite Hl, Hk. eauto.
Qed.

Lemma add_edge_counts from to w name bi g :
  same_keys g →
  let g' := (add_edge from to w name bi g).2 in
  size (nodes g') =
    (size (nodes g) + (if decide (from ∈ dom (nodes g)) then 0 else 1)
     + (if decide (to ∈ dom (nodes g) ∨ to = from) then 0 else 1))%nat ∧
  edge_count g' = (edge_count g + if bi then 2 else 1)%nat.
Proof.
  intros Hd g'. split.
  - unfold g'. rewrite add_edge_run.
    set (g1 := (add_node from 0 0 "" g).2).
    set (g2 := (add_node to 0 0 "" g1).2).
    assert (E : nodes ((append_edge from (mkEdge from to w name) ;;;
                 if bi then append_edge to (mkEdge to from w name) else ret tt) g2).2
                = nodes g2).
    { unfold bind. rewrite append_edge_run.
      destruct (edges g2 !! from); [| done]. destruct bi; [| done].
      rewrite append_edge_run. simpl. by destruct (_ !! to). }
    rewrite E.
    destruct (add_node_effect from 0 0 "" g Hd) as (Hd1 & _ & Hl1). fold g1 in Hd1, Hl1.
    destruct (add_node_counts from 0 0 "" g Hd) as [S1 _]. fold g1 in S1.
    destruct (add_node_counts to 0 0 "" g1 Hd1) as [S2 _]. fold g2 in S2.
    rewrite S2, S1. f_equal.
    destruct (decide (to ∈ dom (nodes g1))) as [H1 | H1];
      destruct (decide (to ∈ dom (nodes g) ∨ to = from)) as [H2 | H2]; try done; exfalso.
    + apply H2. apply elem_of_dom in H1 as [n H1]. rewrite Hl1 in H1.
      destruct (nodes g !! to) eqn:Et; [left; apply elem_of_dom; eauto |].
      destruct (decide (to = from)); [by right | done].
    + apply H1. apply elem_of_dom. rewrite Hl1.
      destruct H2 as [[n ->]%elem_of_dom | ->]; [eauto |].
      destruct (nodes g !! from); [eauto |]. rewrite decide_True by done. eauto.
  - destruct (add_edge_effect from to w name bi g Hd) as (_ & Hd' & Hn & Hl).
    fold g' in Hd', Hn, Hl.
    assert (Hin : ∀ k, k = from ∨ k = to → k ∈ dom (edges g')).
    { intros k Hk. rewrite Hd'. apply elem_of_dom. rewrite Hl.
      destruct (nodes g !! k); [eauto |]. rewrite decide_True by done. eauto. }
    rewrite <- (edge_count_over (dom (edges g')) g') by done.
    rewrite (sum_list_with_ext_in _
      (λ k, (length (out_edges g k) + (if decide (k = from) then 1 else 0))
            + (if bi then if decide (k = to) then 1 else 0 else 0))%nat).
    + rewrite !sum_list_with_add.
      rewrite edge_count_over.
      * rewrite sum_indicator by auto.
        destruct bi.
        -- rewrite sum_indicator by auto. lia.
        -- rewrite sum_list_with_zero. lia.
      * rewrite Hd', Hd. intros k [n Hk]%elem_of_dom. apply elem_of_dom.
        rewrite Hl, Hk. eauto.
    + intros k _. rewrite Hn, !length_app.
      destruct (decide (k = from)), bi; try destruct (decide (k = to)); simpl; lia.
Qed.

(** X15: on a graph whose two dictionaries have the same keys, the text
    of [Graph.__repr__] shows the number of nodes and the number of stored
    edge records; [add_node] raises the first by one for a new key and
    leaves the second, [add_edge] raises the first by one for each of its
    ends that is new and the second by two, or by one when it is called
    with [bidirectional] false. *)
Theorem repr_counts g :
  same_keys g →
  Graph_repr g =
    "Graph(nodes=" +:+ pretty (size (nodes g)) +:+ ", edges="
    +:+ pretty (edge_count g) +:+ ")" ∧
  (∀ id x y name,
     Graph_repr (add_node id x y name g).2 =
     "Graph(nodes="
     +:+ pretty (size (nodes g) + if decide (id ∈ dom (nodes g)) then 0 else 1)%nat
     +:+ ", edges=" +:+ pretty (edge_count g) +:+ ")") ∧
  (∀ from to w name bi,
     Graph_repr (add_edge from to w name bi g).2 =
     "Graph(nodes="
     +:+ pretty (size (nodes g) + (if decide (from ∈ dom (nodes g)) then 0 else 1)
                 + (if decide (to ∈ dom (nodes g) ∨ to = from) then 0 else 1))%nat
     +:+ ", edges=" +:+ pretty (edge_count g + if bi then 2 else 1)%nat +:+ ")").
Proof.
  intros Hd. split; [| split].
  - unfold Graph_repr. by rewrite sum_values_edge_count.
  - intros id x y name. destruct (add_node_counts id x y name g Hd) as [E1 E2].
    unfold Graph_repr. by rewrite sum_values_edge_count, E1, E2.
  - intros from to w name bi. destruct (add_edge_counts from to w name bi g Hd) as [E1 E2].
    unfold Graph_repr. by rewrite sum_values_edge_count, E1, E2.
Qed.

Lemma repr_counts_witness :
  Graph_repr diamond = "Graph(nodes=4, edges=8)" ∧
  Graph_repr (add_edge "D" "E" 1 "" true diamond).2 = "Graph(nodes=5, edges=10)".
Proof.
  destruct (repr_counts diamond (constructed_same_keys diamond constructed_diamond))
    as (H1 & _ & H3).
  split.
  - rewrite H1. vm_compute. reflexivity.
  - rewrite H3. vm_compute. reflexivity.
Defined.

(** ** Route descriptions *)

Section NavFacts.
Context (fmt : Q → string).

Lemma nbind_ok {A B} (m : N A) (k : A → N B) g a g1 :
  m g = (NOk a, g1) → (m ≫= k) g = k a g1.
Proof. unfold mbind, N_bind. by intros ->. Qed.

Lemma nbind_raise {A B} (m : N A) (k : A → N B) g e g1 :
  m g = (NRaise e, g1) → (m ≫= k) g = (NRaise e, g1).
Proof. unfold mbind, N_bind. by intros ->. Qed.

Lemma lift_get_node k g : lift (get_node k) g = (NOk (nodes g !! k), g).
Proof. done. Qed.

Lemma lift_edges g : lift (gets edges) g = (NOk (edges g), g).
Proof. done. Qed.

Lemma name_of_known g k :
  k ∈ dom (nodes g) → name_of (nodes g !! k) g = (NOk (name_in g k), g).
Proof. intros [n Hn]%elem_of_dom. unfold name_in. by rewrite Hn. Qed.

Lemma name_of_unknown g k :
  k ∉ dom (nodes g) → name_of (nodes g !! k) g = (NRaise AttributeError, g).
Proof. intros Hn%not_elem_of_dom. by rewrite Hn. Qed.

Lemma lift_getitem_edges g u :
  u ∈ dom (edges g) → lift (getitem (edges g) u) g = (NOk (out_edges g u), g).
Proof.
  intros [l Hl]%elem_of_dom. unfold lift, getitem, out_edges. by rewrite Hl.
Qed.

Lemma lift_getitem_missing g u :
  u ∉ dom (edges g) → lift (getitem (edges g) u) g = (NRaise (GraphError KeyError), g).
Proof.
  intros Hl%not_elem_of_dom. unfold lift, getitem. by rewrite Hl.
Qed.

(** One turn of the loop over the legs. *)
Lemma route_steps_cons u v rest dirs g :
  u ∈ dom (edges g) →
  route_steps fmt (u :: v :: rest) dirs g =
  if decide (v ∈ dom (nodes g))
  then route_steps fmt (v :: rest) (dirs ++ [leg fmt g u v]) g
  else (NRaise AttributeError, g).
Proof.
  intros Hu. cbn [route_steps].
  rewrite (nbind_ok _ _ _ _ _ (lift_get_node u g)).
  rewrite (nbind_ok _ _ _ _ _ (lift_get_node v g)).
  rewrite (nbind_ok _ _ _ _ _ (lift_edges g)).
  rewrite (nbind_ok _ _ _ _ _ (lift_getitem_edges g u Hu)).
  unfold leg. destruct (decide (v ∈ dom (nodes g))) as [Hv | Hv].
  - destruct (find_edge v (out_edges g u)) as [e |].
    + erewrite nbind_ok; [done |].
      by rewrite (nbind_ok _ _ _ _ _ (name_of_known g v Hv)).
    + erewrite nbind_ok; [done |].
      by rewrite (nbind_ok _ _ _ _ _ (name_of_known g v Hv)).
  - destruct (find_edge v (out_edges g u)) as [e |].
    + erewrite nbind_raise; [done |].
      by rewrite (nbind_raise _ _ _ _ _ (name_of_unknown g v Hv)).
    + erewrite nbind_raise; [done |].
      by rewrite (nbind_raise _ _ _ _ _ (name_of_unknown g v Hv)).
Qed.

Lemma route_steps_known g path :
  same_keys g → known g path →
  ∀ dirs, route_steps fmt path dirs g = (NOk (dirs ++ legs fmt g path), g).
Proof.
  intros Hd. induction path as [| u rest IH]; intros Hk dirs.
  - simpl. by rewrite app_nil_r.
  - destruct rest as [| v rest].
    + simpl. by rewrite app_nil_r.
    + apply Forall_cons in Hk as [Hu Hk]. pose proof Hk as Hk'.
      apply Forall_cons in Hk' as [Hv _].
      rewrite route_steps_cons by (by rewrite Hd).
      rewrite decide_True by done. rewrite IH by done.
      cbn [legs]. by rewrite <- app_assoc.
Qed.

Lemma route_steps_unknown g path :
  same_keys g →
  ∀ u dirs, u ∈ dom (nodes g) → ¬ known g (u :: path) →
  route_steps fmt (u :: path) dirs g = (NRaise AttributeError, g).
Proof.
  intros Hd. induction path as [| v rest IH]; intros u dirs Hu Hn.
  - destruct Hn. by apply Forall_singleton.
  - rewrite route_steps_cons by (by rewrite Hd).
    destruct (decide (v ∈ dom (nodes g))) as [Hv | Hv]; [| done].
    apply IH; [done |]. intros Hk. apply Hn. by apply Forall_cons.
Qed.

Lemma legs_length g u path : length (legs fmt g (u :: path)) = length path.
Proof.
  revert u. induction path as [| v rest IH]; intros u; [done |].
  cbn [legs length]. f_equal. apply IH.
Qed.

Lemma last_known g k path : known g (k :: path) → List.last (k :: path) k ∈ dom (nodes g).
Proof.
  intros Hk. revert k Hk. induction path as [| v rest IH]; intros k Hk.
  - simpl. by apply (Forall_singleton (λ k, k ∈ dom (nodes g))) in Hk.
  - apply Forall_cons in Hk as [Hu Hk]. change (List.last (k :: v :: rest) k) with (List.last (v :: rest) k).
    assert (E : ∀ d, List.last (v :: rest) d = List.last (v :: rest) v).
    { clear. revert v. induction rest as [| x r IHr]; intros v d; [done |].
      change (List.last (v :: x :: r) d) with (List.last (x :: r) d).
      change (List.last (v :: x :: r) v) with (List.last (x :: r) v).
      by rewrite (IHr x d), (IHr x v). }
    rewrite E. by apply IH.
Qed.

(** What [get_route_description] returns on a path of nodes. *)
Lemma get_route_description_known g k path :
  same_keys g → known g (k :: path) →
  get_route_description fmt (Some (k :: path)) g =
  (NOk (match path with
        | [] => ["You are already at " +:+ name_in g k]
        | _ => ["Start at " +:+ name_in g k] ++ legs fmt g (k :: path)
               ++ ["Arrive at " +:+ name_in g (List.last (k :: path) k)]
        end), g).
Proof.
  intros Hd Hk. pose proof Hk as Hk'. apply Forall_cons in Hk' as [Hu _].
  destruct path as [| v rest].
  - cbn [get_route_description].
    rewrite (nbind_ok _ _ _ _ _ (lift_get_node k g)).
    by rewrite (nbind_ok _ _ _ _ _ (name_of_known g k Hu)).
  - cbn [get_route_description].
    rewrite (nbind_ok _ _ _ _ _ (lift_get_node k g)).
    rewrite (nbind_ok _ _ _ _ _ (name_of_known g k Hu)).
    rewrite (nbind_ok _ _ _ _ _ (route_steps_known g _ Hd Hk _)).
    rewrite (nbind_ok _ _ _ _ _ (lift_get_node _ g)).
    rewrite (nbind_ok _ _ _ _ _ (name_of_known g _ (last_known g k _ Hk))).
    unfold mret, N_ret. by rewrite <- app_assoc.
Qed.

Lemma get_route_description_unknown g k path :
  same_keys g → ¬ known g (k :: path) →
  get_route_description fmt (Some (k :: path)) g = (NRaise AttributeError, g).
Proof.
  intros Hd Hn. destruct (decide (k ∈ dom (nodes g))) as [Hu | Hu].
  - destruct path as [| v rest].
    { destruct Hn. by apply Forall_singleton. }
    cbn [get_route_description].
    rewrite (nbind_ok _ _ _ _ _ (lift_get_node k g)).
    rewrite (nbind_ok _ _ _ _ _ (name_of_known g k Hu)).
    by rewrite (nbind_raise _ _ _ _ _ (route_steps_unknown g _ Hd k _ Hu Hn)).
  - destruct path as [| v rest]; cbn [get_route_description];
      rewrite (nbind_ok _ _ _ _ _ (lift_get_node k g));
      by rewrite (nbind_raise _ _ _ _ _ (name_of_unknown g k Hu)).
Qed.

Lemma get_route_description_key_error g u v rest :
  u ∈ dom (nodes g) → u ∉ dom (edges g) →
  get_route_description fmt (Some (u :: v :: rest)) g = (NRaise (GraphError KeyError), g).
Proof.
  intros Hu He. cbn [get_route_description].
  rewrite (nbind_ok _ _ _ _ _ (lift_get_node u g)).
  rewrite (nbind_ok _ _ _ _ _ (name_of_known g u Hu)).
  erewrite nbind_raise; [done |]. cbn [route_steps].
  rewrite (nbind_ok _ _ _ _ _ (lift_get_node u g)).
  rewrite (nbind_ok _ _ _ _ _ (lift_get_node v g)).
  rewrite (nbind_ok _ _ _ _ _ (lift_edges g)).
  by rewrite (nbind_raise _ _ _ _ _ (lift_getitem_missing g u He)).
Qed.

End NavFacts.

Section NavTheorems.
Context (fmt : Q → string).

Lemma find_edge_app v l l' e :
  find_edge v l = Some e → find_edge v (l ++ l') = Some e.
Proof.
  induction l as [| x l IH]; [done |]. simpl. by destruct (decide (to_node x = v)).
Qed.

Lemma find_edge_Some v l e :
  find_edge v l = Some e → e ∈ l ∧ to_node e = v.
Proof.
  induction l as [| x l IH]; [done |]. simpl.
  destruct (decide (to_node x = v)) as [Hx | Hx].
  - intros [= <-]. split; [by left | done].
  - intros H. destruct (IH H). split; [by right | done].
Qed.

Lemma find_edge_elem v l e :
  e ∈ l → to_node e = v → ∃ e', find_edge v l = Some e'.
Proof.
  induction l as [| x l IH]; [by intros ?%elem_of_nil |].
  intros Hin Hv. simpl. destruct (decide (to_node x = v)); [eauto |].
  apply elem_of_cons in Hin as [-> | Hin]; [done | by apply IH].
Qed.

Lemma edge_find g u v w : edge g u v w → ∃ e, find_edge v (out_edges g u) = Some e.
Proof.
  unfold edge. rewrite neighbors_out_edges.
  intros (e & [= Hv Hw] & Hin)%list_elem_of_fmap. by eapply find_edge_elem.
Qed.

Lemma legs_lookup g path i u v :
  path !! i = Some u → path !! S i = Some v →
  legs fmt g path !! i = Some (leg fmt g u v).
Proof.
  revert i. induction path as [| a rest IH]; intros i Hu Hv; [done |].
  destruct rest as [| b rest]; [done |].
  destruct i as [| i]; simpl in Hu, Hv.
  - by injection Hu as <-; injection Hv as <-.
  - cbn [legs]. simpl. by apply IH.
Qed.

Lemma leg_via g u v w :
  edge g u v w →
  ∃ ed, ed ∈ out_edges g u ∧ to_node ed = v ∧
    leg fmt g u v =
    "Go to " +:+ name_in g v +:+ " via "
    +:+ (if decide (edge_name ed = "") then "the street" else edge_name ed)
    +:+ " (" +:+ fmt (weight ed) +:+ " units)".
Proof.
  intros He. destruct (edge_find _ _ _ _ He) as (ed & Hf).
  destruct (find_edge_Some _ _ _ Hf) as [Hin Hto].
  exists ed. split; [done |]. split; [done |]. unfold leg. by rewrite Hf.
Qed.

Lemma path_known g s path :
  wf g → s ∈ dom (nodes g) → head path = Some s → edges_along g path → known g path.
Proof.
  intros Hwf Hs Hh He. apply Forall_lookup. intros i k Hi.
  destruct i as [| i].
  - destruct path; [done |]. simpl in *. congruence.
  - destruct (lookup_lt_is_Some_2 path i) as [u Hu].
    { apply lookup_lt_Some in Hi. lia. }
    destruct (He _ _ _ Hu Hi) as (w & Hw). by eapply wf_edge_dest.
Qed.

Lemma path_single (path : list string) s :
  NoDup path → head path = Some s → last path = Some s → path = [s].
Proof.
  destruct path as [| a rest]; [done |]. intros Hnd [= ->] Hl.
  destruct rest as [| b rest]; [done |]. exfalso.
  apply NoDup_cons in Hnd as [Hn _]. apply Hn.
  rewrite last_cons_cons in Hl. apply last_Some in Hl as (l' & ->).
  apply elem_of_app. right. by left.
Qed.

Lemma last_default (path : list string) k e :
  last (k :: path) = Some e → List.last (k :: path) k = e.
Proof.
  revert k. induction path as [| v rest IH]; intros k.
  - by intros [= <-].
  - rewrite last_cons_cons. intros H.
    change (List.last (k :: v :: rest) k) with (List.last (v :: rest) k).
    assert (E : ∀ d, List.last (v :: rest) d = List.last (v :: rest) v).
    { clear. revert v. induction rest as [| x r IHr]; intros v d; [done |].
      change (List.last (v :: x :: r) d) with (List.last (x :: r) d).
      change (List.last (v :: x :: r) v) with (List.last (x :: r) v).
      by rewrite (IHr x d), (IHr x v). }
    rewrite E. by apply IH.
Qed.

Lemma lift_ok_inv {A} (m : M A) g r g' :
  lift m g = (NOk r, g') → m g = (Ok r, g').
Proof. unfold lift. destruct (m g) as [[a | ex |] g1]; by intros [= <- <-]. Qed.

Lemma describe_result g s e path :
  wf g → s ∈ dom (nodes g) →
  head path = Some s → last path = Some e → edges_along g path → NoDup path →
  ∃ lines, get_route_description fmt (Some path) g = (NOk lines, g) ∧
    if decide (s = e) then lines = ["You are already at " +:+ name_in g s]
    else
      length lines = S (length path) ∧
      head lines = Some ("Start at " +:+ name_in g s) ∧
      last lines = Some ("Arrive at " +:+ name_in g e) ∧
      ∀ i u v, path !! i = Some u → path !! S i = Some v →
        ∃ ed, ed ∈ out_edges g u ∧ to_node ed = v ∧
          lines !! S i =
          Some ("Go to " +:+ name_in g v +:+ " via "
                +:+ (if decide (edge_name ed = "") then "the street" else edge_name ed)
                +:+ " (" +:+ fmt (weight ed) +:+ " units)").
Proof.
  intros Hwf Hs Hh Hl He Hnd.
  pose proof (path_known g s path Hwf Hs Hh He) as Hk.
  destruct path as [| k rest]; [done |]. injection Hh as ->.
  rewrite (get_route_description_known fmt g s rest (wf_dom _ Hwf) Hk).
  eexists. split; [done |].
  destruct (decide (s = e)) as [<- | Hne].
  - pose proof (path_single (s :: rest) s Hnd eq_refl Hl) as E. by injection E as ->.
  - destruct rest as [| v rest]; [by injection Hl |].
    rewrite (last_default _ _ _ Hl).
    split; [| split; [done | split]].
    + rewrite !length_app, legs_length. simpl. lia.
    + by rewrite app_assoc, last_snoc.
    + intros i a b Ha Hb. destruct (He _ _ _ Ha Hb) as (w & Hw).
      destruct (leg_via g a b w Hw) as (ed & Hin & Hto & Hleg).
      exists ed. split; [done |]. split; [done |].
      change (["Start at " +:+ name_in g s] ++ ?l) with (("Start at " +:+ name_in g s) :: l).
      rewrite lookup_cons_ne_0 by done. cbn [pred]. rewrite lookup_app_l.
      * rewrite <- Hleg. by apply legs_lookup.
      * rewrite legs_length. apply lookup_lt_Some in Hb. simpl in *. lia.
Qed.
End NavTheorems.

Section NavGrowth.
Context (fmt : Q → string).

Lemma search_path_facts g fuel s e path c :
  (dijkstra fuel s e g).1 = Ok (Some path, c) ∨ (astar fuel s e g).1 = Ok (Some path, c) →
  s ∈ dom (nodes g) ∧
  head path = Some s ∧ last path = Some e ∧ edges_along g path ∧ NoDup path.
Proof.
  intros H. split.
  - destruct (decide (s ∈ dom (nodes g))) as [| Hn]; [done |]. exfalso.
    destruct H as [H | H].
    + by rewrite dijkstra_absent in H by auto.
    + by rewrite astar_absent in H by auto.
  - destruct H as [H | H]; [by eapply dijkstra_path | by eapply astar_path].
Qed.

Lemma grows_name_in g g' k :
  grows g g' → k ∈ dom (nodes g) → name_in g' k = name_in g k.
Proof.
  intros [Hn _] [n Hk]%elem_of_dom. unfold name_in.
  by rewrite (lookup_weaken _ _ _ _ Hk Hn), Hk.
Qed.

Lemma grows_known g g' path : grows g g' → known g path → known g' path.
Proof.
  intros [Hn _] Hk. eapply Forall_impl; [exact Hk |]. intros k [n Hn']%elem_of_dom.
  apply elem_of_dom. exists n. by eapply lookup_weaken.
Qed.

Lemma grows_leg g g' u v w :
  grows g g' → v ∈ dom (nodes g) → edge g u v w → leg fmt g' u v = leg fmt g u v.
Proof.
  intros Hg Hv He. destruct (edge_find _ _ _ _ He) as (ed & Hf).
  unfold leg. rewrite (grows_name_in g g' v Hg Hv).
  destruct Hg as [_ Hp]. destruct (Hp u) as [l ->].
  by rewrite (find_edge_app _ _ l _ Hf), Hf.
Qed.

Lemma grows_legs g g' path :
  grows g g' → known g path → edges_along g path →
  legs fmt g' path = legs fmt g path.
Proof.
  intros Hg. induction path as [| u rest IH]; intros Hk He; [done |].
  destruct rest as [| v rest]; [done |].
  apply Forall_cons in Hk as [Hu Hk]. pose proof Hk as Hk'.
  apply Forall_cons in Hk' as [Hv _].
  destruct (He 0%nat u v eq_refl eq_refl) as (w & Hw).
  cbn [legs]. rewrite (grows_leg g g' u v w Hg Hv Hw). f_equal.
  apply IH; [done |]. intros i a b Ha Hb. apply (He (S i)); done.
Qed.

Lemma grows_description g g' path :
  same_keys g → same_keys g' → grows g g' →
  known g path → edges_along g path →
  (get_route_description fmt (Some path) g').1 = (get_route_description fmt (Some path) g).1.
Proof.
  intros Hd Hd' Hg Hk He. destruct path as [| k rest]; [done |].
  rewrite (get_route_description_known fmt g k rest Hd Hk).
  rewrite (get_route_description_known fmt g' k rest Hd' (grows_known _ _ _ Hg Hk)).
  cbn [fst]. f_equal. destruct rest as [| v rest].
  - apply (Forall_singleton (λ k, k ∈ dom (nodes g))) in Hk.
    by rewrite (grows_name_in g g' k Hg Hk).
  - rewrite (grows_legs g g' _ Hg Hk He).
    rewrite (grows_name_in g g' k Hg) by (by apply Forall_cons in Hk as [? _]).
    rewrite (grows_name_in g g' _ Hg) by (by apply last_known).
    done.
Qed.

End NavGrowth.

(** X13: on a graph built by [add_node] and [add_edge], whatever
    [find_path_dijkstra] or [find_path_astar] returns can be handed to
    [get_route_description]: the graph is left as it was and no exception
    is raised.  For the no-path sentinel the description is the one line
    "No route found"; for a start that is the end it is the one line "You
    are already at" with the name of the node; otherwise it has one line
    more than the path has keys, begins with "Start at" and the name of the
    start, ends with "Arrive at" and the name of the end, and for each step
    of the path has a line "Go to ... via ..." that names a stored edge
    from the one key to the next. *)
Theorem found_route_is_described (fmt : Q → string) g fuel s e r g' :
  constructed g →
  find_path_dijkstra fuel s e g = (NOk r, g') ∨
  find_path_astar fuel s e g = (NOk r, g') →
  g' = g ∧
  ∃ lines, get_route_description fmt r.1 g' = (NOk lines, g') ∧
    match r.1 with
    | None => lines = ["No route found"]
    | Some path =>
        if decide (s = e) then lines = ["You are already at " +:+ name_in g s]
        else
          length lines = S (length path) ∧
          head lines = Some ("Start at " +:+ name_in g s) ∧
          last lines = Some ("Arrive at " +:+ name_in g e) ∧
          ∀ i u v, path !! i = Some u → path !! S i = Some v →
            ∃ ed, ed ∈ out_edges g u ∧ to_node ed = v ∧
              lines !! S i =
              Some ("Go to " +:+ name_in g v +:+ " via "
                    +:+ (if decide (edge_name ed = "") then "the street" else edge_name ed)
                    +:+ " (" +:+ fmt (weight ed) +:+ " units)")
    end.
Proof.
  intros Hc H. pose proof (constructed_wf g Hc) as Hwf.
  assert (Hg : g' = g ∧ ((dijkstra fuel s e g).1 = Ok r ∨ (astar fuel s e g).1 = Ok r)).
  { destruct H as [H | H]; apply lift_ok_inv in H.
    - pose proof (readonly_dijkstra fuel s e g) as Hro. rewrite H in Hro.
      split; [done |]. left. by rewrite H.
    - pose proof (readonly_astar fuel s e g) as Hro. rewrite H in Hro.
      split; [done |]. right. by rewrite H. }
  destruct Hg as [-> Hr]. split; [done |].
  destruct r as [[path |] c]; simpl.
  - destruct (search_path_facts g fuel s e path c Hr) as (Hs & Hh & Hl & He & Hnd).
    by apply (describe_result fmt g s e path).
  - by eexists.
Qed.

Lemma found_route_is_described_witness :
  town = town ∧
  ∃ lines,
    get_route_description (λ _, "?") (Some ["Home"; "Store"; "Park"]) town
    = (NOk lines, town) ∧
    length lines = 4%nat ∧
    head lines = Some ("Start at " +:+ name_in town "Home") ∧
    last lines = Some ("Arrive at " +:+ name_in town "Park") ∧
    ∀ i u v, ["Home"; "Store"; "Park"] !! i = Some u →
      ["Home"; "Store"; "Park"] !! S i = Some v →
      ∃ ed, ed ∈ out_edges town u ∧ to_node ed = v ∧
        lines !! S i =
        Some ("Go to " +:+ name_in town v +:+ " via "
              +:+ (if decide (edge_name ed = "") then "the street" else edge_name ed)
              +:+ " (" +:+ "?" +:+ " units)").
Proof.
  apply (found_route_is_described (λ _, "?") town 20 "Home" "Park"
           (Some ["Home"; "Store"; "Park"], Fin (7 # 2)) town).
  - apply constructed_town.
  - left. vm_compute. reflexivity.
Defined.

(** X12: [get_route_description] returns the one line "No route found"
    for [None] and for the empty path.  On a graph whose two dictionaries
    have the same keys, a path of nodes is described without exception, in
    one line when it has one key and in one line more than it has keys
    otherwise, and a path with a key that is not a node raises
    [AttributeError]; on any graph, a path of two keys or more whose first
    key is a node without edge list raises [KeyError].  The graph is left
    as it was in each case. *)
Theorem route_description_outcome (fmt : Q → string) g path :
  get_route_description fmt None g = (NOk ["No route found"], g) ∧
  get_route_description fmt (Some []) g = (NOk ["No route found"], g) ∧
  (same_keys g → path ≠ [] → known g path →
     ∃ lines, get_route_description fmt (Some path) g = (NOk lines, g) ∧
       length lines = if decide (length path = 1%nat) then 1%nat else S (length path)) ∧
  (same_keys g → ¬ known g path →
     get_route_description fmt (Some path) g = (NRaise AttributeError, g)) ∧
  (∀ u v rest, path = u :: v :: rest → u ∈ dom (nodes g) → u ∉ dom (edges g) →
     get_route_description fmt (Some path) g = (NRaise (GraphError KeyError), g)).
Proof.
  split; [done |]. split; [done |]. split; [| split].
  - intros Hd Hne Hk. destruct path as [| k rest]; [done |].
    rewrite (get_route_description_known fmt g k rest Hd Hk).
    eexists. split; [done |]. destruct rest as [| v rest]; [done |].
    rewrite decide_False by done.
    rewrite !length_app, legs_length. simpl. lia.
  - intros Hd Hn. destruct path as [| k rest].
    + destruct Hn. apply Forall_nil_2.
    + by apply get_route_description_unknown.
  - intros u v rest -> Hu He. by apply get_route_description_key_error.
Qed.

(** X14: on a graph whose two dictionaries have the same keys, the
    description of a path of nodes whose steps all follow stored edges is
    the same after any further [add_node] or [add_edge]: a street added
    later between two keys that already have one is never the street
    described. *)
Theorem description_outlives_growth (fmt : Q → string) g path :
  same_keys g → known g path → edges_along g path →
  (∀ id x y name,
     (get_route_description fmt (Some path) (add_node id x y name g).2).1
     = (get_route_description fmt (Some path) g).1) ∧
  (∀ from to w name bi,
     (get_route_description fmt (Some path) (add_edge from to w name bi g).2).1
     = (get_route_description fmt (Some path) g).1).
Proof.
  intros Hd Hk He. split.
  - intros id x y name. apply (grows_description fmt); auto.
    + by destruct (add_node_effect id x y name g Hd).
    + by apply add_node_grows.
  - intros from to w name bi. apply (grows_description fmt); auto.
    + by destruct (add_edge_effect from to w name bi g Hd) as (_ & ? & _).
    + by apply add_edge_grows.
Qed.

Lemma description_outlives_growth_witness :
  (∀ id x y name,
     (get_route_description (λ _, "?") (Some ["Home"; "Store"; "Park"])
        (add_node id x y name town).2).1
     = (get_route_description (λ _, "?") (Some ["Home"; "Store"; "Park"]) town).1) ∧
  (∀ from to w name bi,
     (get_route_description (λ _, "?") (Some ["Home"; "Store"; "Park"])
        (add_edge from to w name bi town).2).1
     = (get_route_description (λ _, "?") (Some ["Home"; "Store"; "Park"]) town).1).
Proof.
  apply (description_outlives_growth (λ _, "?") town ["Home"; "Store"; "Park"]).
  - apply constructed_same_keys, constructed_town.
  - repeat (apply Forall_cons; split; [in_dom |]). apply Forall_nil_2.
  - apply (dijkstra_path town 20 "Home" "Park" _ (Fin (7 # 2))). vm_compute. reflexivity.
Defined.

(** ** Costs compared *)






(** ** The graph methods, one by one *)

(** X4: on a graph whose two dictionaries have the same keys, [add_edge]
    raises nothing and keeps that shape.  Afterwards [get_neighbors] returns
    for every key what it returned before, followed by [(to, w)] for the
    key [from] and then, when the edge is two-way, by [(from, w)] for the
    key [to] (two entries for a two-way loop); the stored records carry the
    name given; every node stays as it was, and an end that was no node is
    now the node of that key at the origin, named by its key. *)
Theorem add_edge_stores_streets from to w name bi g :
  same_keys g →
  (add_edge from to w name bi g).1 = Ok tt ∧
  same_keys (add_edge from to w name bi g).2 ∧
  (∀ k, get_neighbors k (add_edge from to w name bi g).2 =
        (Ok (neighbors g k
             ++ (if decide (k = from) then [(to, w)] else [])
             ++ (if bi then if decide (k = to) then [(from, w)] else [] else [])),
         (add_edge from to w name bi g).2)) ∧
  (∀ k, out_edges (add_edge from to w name bi g).2 k =
        out_edges g k
        ++ (if decide (k = from) then [mkEdge from to w name] else [])
        ++ (if bi then if decide (k = to) then [mkEdge to from w name] else [] else [])) ∧
  (∀ k, nodes (add_edge from to w name bi g).2 !! k =
        match nodes g !! k with
        | Some n => Some n
        | None => if decide (k = from ∨ k = to) then Some (Node_init k 0 0 "") else None
        end).
Proof.
  intros Hd. destruct (add_edge_effect from to w name bi g Hd) as (H1 & H2 & H3 & H4).
  split; [done |]. split; [done |]. split; [| by split].
  intros k. by rewrite get_neighbors_run, add_edge_neighbors.
Qed.

Lemma add_edge_stores_streets_witness :
  (add_edge "A" "E" 5 "Far St" true diamond).1 = Ok tt ∧
  get_neighbors "A" (add_edge "A" "E" 5 "Far St" true diamond).2 =
    (Ok (neighbors diamond "A" ++ [("E", 5)] ++ []),
     (add_edge "A" "E" 5 "Far St" true diamond).2) ∧
  nodes (add_edge "A" "E" 5 "Far St" true diamond).2 !! "E"
  = Some (Node_init "E" 0 0 "").
Proof.
  destruct (add_edge_stores_streets "A" "E" 5 "Far St" true diamond
              (constructed_same_keys diamond constructed_diamond))
    as (H1 & _ & H3 & _ & H5).
  split; [exact H1 |]. split; [exact (H3 "A") | exact (H5 "E")].
Defined.

(** X5: [add_edge] raises [KeyError] exactly when an end it must append to
    is a node without edge list, which only a graph put together by hand
    has: the key [from], or the key [to] of a two-way edge.  When only the
    append to [to] fails, the edge from [from] to [to] has been stored
    already and stays.  In every other case [add_edge] returns. *)
Theorem add_edge_key_error from to w name bi g :
  (lacks_edge_list g from → (add_edge from to w name bi g).1 = Raise KeyError) ∧
  (¬ lacks_edge_list g from → bi = true → lacks_edge_list g to →
     (add_edge from to w name bi g).1 = Raise KeyError ∧
     edge (add_edge from to w name bi g).2 from to w) ∧
  (¬ lacks_edge_list g from → ¬ (bi = true ∧ lacks_edge_list g to) →
     (add_edge from to w name bi g).1 = Ok tt).
Proof. apply add_edge_outcome. Qed.

Lemma add_edge_key_error_witness :
  (add_edge "A" "B" 1 "" true bare).1 = Raise KeyError ∧
  ((add_edge "B" "A" 1 "" true bare).1 = Raise KeyError ∧
   edge (add_edge "B" "A" 1 "" true bare).2 "B" "A" 1) ∧
  (add_edge "B" "A" 1 "" false bare).1 = Ok tt.
Proof.
  assert (HA : lacks_edge_list bare "A") by (split; in_dom).
  assert (HB : ¬ lacks_edge_list bare "B").
  { intros [H _]. revert H. in_dom. }
  destruct (add_edge_key_error "A" "B" 1 "" true bare) as (H1 & _ & _).
  destruct (add_edge_key_error "B" "A" 1 "" true bare) as (_ & H2 & _).
  destruct (add_edge_key_error "B" "A" 1 "" false bare) as (_ & _ & H3).
  split; [exact (H1 HA) |]. split; [exact (H2 HB eq_refl HA) |].
  apply (H3 HB). by intros [[=] _].
Defined.

(** X6: on a graph whose two dictionaries have the same keys, [add_node]
    and [add_edge] only add: every node stays under its key as it was,
    every edge list keeps its entries, in order, at its beginning; so every
    stored edge stays and every walk of the graph is still a walk. *)
Theorem building_only_grows g :
  same_keys g →
  (∀ id x y name, grows g (add_node id x y name g).2) ∧
  (∀ from to w name bi, grows g (add_edge from to w name bi g).2) ∧
  (∀ g', grows g g' →
     (∀ u v w, edge g u v w → edge g' u v w) ∧
     (∀ s t c, walk g s t c → walk g' s t c)).
Proof.
  intros Hd. split; [| split].
  - intros. by apply add_node_grows.
  - intros. by apply add_edge_grows.
  - intros g' Hg. split.
    + intros u v w. by apply grows_edge.
    + intros s t c. by apply grows_walk.
Qed.

Lemma building_only_grows_witness :
  (∀ id x y name, grows diamond (add_node id x y name diamond).2) ∧
  (∀ from to w name bi, grows diamond (add_edge from to w name bi diamond).2) ∧
  (∀ g', grows diamond g' →
     (∀ u v w, edge diamond u v w → edge g' u v w) ∧
     (∀ s t c, walk diamond s t c → walk g' s t c)).
Proof.
  apply (building_only_grows diamond).
  apply constructed_same_keys, constructed_diamond.
Defined.

(** X7: in a graph built by [add_node] and [add_edge] every node is stored
    under its own id, with a display name that is empty only if the id is,
    and every edge is stored in the list of its [from_node]; so two stored
    nodes are equal for [Node.__eq__] exactly when they are stored under
    the same key.  Nodes that are equal have the same hash, whatever the
    graph. *)
Theorem built_records_are_filed g :
  constructed g →
  (∀ k n, nodes g !! k = Some n →
     node_id n = k ∧ (node_name n = "" → k = "")) ∧
  (∀ u l ed, edges g !! u = Some l → ed ∈ l → from_node ed = u) ∧
  (∀ k1 k2 n1 n2, nodes g !! k1 = Some n1 → nodes g !! k2 = Some n2 →
     Node_eq n1 n2 = true ↔ k1 = k2) ∧
  (∀ (hash : string → Z) n1 n2,
     Node_eq n1 n2 = true → Node_hash hash n1 = Node_hash hash n2).
Proof.
  intros Hc. destruct (constructed_filed g Hc) as [Hn He].
  split; [done |]. split; [done |]. split.
  - intros k1 k2 n1 n2 H1 H2.
    destruct (Hn _ _ H1) as [E1 _], (Hn _ _ H2) as [E2 _].
    unfold Node_eq. rewrite bool_decide_eq_true. by rewrite E1, E2.
  - intros hash n1 n2 H. unfold Node_eq in H. apply bool_decide_eq_true in H.
    unfold Node_hash. by rewrite H.
Qed.

Lemma built_records_are_filed_witness :
  (∀ k n, nodes downhill !! k = Some n →
     node_id n = k ∧ (node_name n = "" → k = "")) ∧
  (∀ u l ed, edges downhill !! u = Some l → ed ∈ l → from_node ed = u) ∧
  (∀ k1 k2 n1 n2, nodes downhill !! k1 = Some n1 → nodes downhill !! k2 = Some n2 →
     Node_eq n1 n2 = true ↔ k1 = k2) ∧
  (∀ (hash : string → Z) n1 n2,
     Node_eq n1 n2 = true → Node_hash hash n1 = Node_hash hash n2).
Proof. apply (built_records_are_filed downhill). apply constructed_downhill. Defined.

(** X11: [add_node] on a key that is no node yet returns the new node, of
    that id, at the coordinates given and named by the name given or, if it
    is empty, by the id; afterwards [get_node] returns that node for the
    key and [get_neighbors] the empty list, the graph has one node more,
    and what is stored under every other key is as before. *)
Theorem add_node_fresh id x y name g :
  nodes g !! id = None →
  (add_node id x y name g).1 = Ok (Node_init id x y name) ∧
  get_node id (add_node id x y name g).2
  = (Ok (Some (Node_init id x y name)), (add_node id x y name g).2) ∧
  get_neighbors id (add_node id x y name g).2 = (Ok [], (add_node id x y name g).2) ∧
  size (nodes (add_node id x y name g).2) = S (size (nodes g)) ∧
  ∀ k, k ≠ id →
    nodes (add_node id x y name g).2 !! k = nodes g !! k ∧
    edges (add_node id x y name g).2 !! k = edges g !! k.
Proof. apply add_node_fresh_run. Qed.

Lemma add_node_fresh_witness :
  (add_node "E" 10 10 "" diamond).1 = Ok (mkNode "E" 10 10 "E") ∧
  size (nodes (add_node "E" 10 10 "" diamond).2) = 5%nat.
Proof.
  destruct (add_node_fresh "E" 10 10 "" diamond) as (H1 & _ & _ & H4 & _).
  - vm_compute. reflexivity.
  - split; [exact H1 | exact H4].
Defined.



(** ** The states of the loops, whatever the weights *)

Section Reach.
Context (g : Graph) (s e : string).

Lemma d_reach_basic st :
  s ∈ dom (nodes g) →
  d_reach g e (dijkstra_init (nodes g) s) st →
  inv_basic g s e (dview st) ∧ (measure g (dview st) ≤ edge_count g + 1)%nat.
Proof.
  intros Hs. induction 1 as [| st st' g' Hr IH Hi].
  - destruct (dijkstra_init_inv g s e hzero Hs) as (Hb & _). split; [done |].
    unfold dview, dijkstra_init. simpl. rewrite measure_init. simpl. lia.
  - destruct IH as [Hb Hm].
    apply (dijkstra_iter_sim s e) in Hi as [-> Hi]; [| apply Hb]. simpl in Hi.
    split; [by eapply inv_basic_step |].
    pose proof (astep_measure _ _ _ _ _ _ Hi). lia.
Qed.

Lemma a_reach_basic st :
  s ∈ dom (nodes g) →
  a_reach g e (astar_init (nodes g) s (distance_of g s e) (distance_of g s e)) st →
  inv_basic g s e (aview st) ∧ a_shape g e st ∧
  (measure g (aview st) ≤ edge_count g + 1)%nat.
Proof.
  intros Hs. induction 1 as [| st st' g' Hr IH Hi].
  - destruct (astar_init_inv g s e hzero Hs) as (Hb & _ & _ & Hsh).
    split; [done |]. split; [done |].
    unfold aview, astar_init. simpl. rewrite measure_init. simpl. lia.
  - destruct IH as (Hb & Hsh & Hm).
    apply (astar_iter_sim s e) in Hi as [-> [Hi Hsh']]; [| apply Hb | done].
    simpl in Hi, Hsh'. split; [by eapply inv_basic_step |]. split; [done |].
    pose proof (astep_measure _ _ _ _ _ _ Hi). lia.
Qed.

End Reach.

(** X18: in every state that the loop of [dijkstra] is in at the top of a
    turn, whatever the weights, a key that is popped and not yet visited is
    popped with exactly the distance recorded for it: the test
    [current_distance > distances[current_node]] that follows is then false,
    so its [continue] is never taken. *)
Theorem stale_test_never_fires g s e st d n pq' :
  s ∈ dom (nodes g) →
  d_reach g e (dijkstra_init (nodes g) s) st →
  heappop (d_pq st) = Some ((d, n), pq') → n ∉ d_visited st →
  ∃ dn, distances st !! n = Some (Fin dn) ∧ dn == d ∧
        ltb (Fin dn) (Fin d) = false.
Proof.
  intros Hs Hr Hp Hv.
  destruct (d_reach_basic g s e st Hs Hr) as [[Hinv _] _].
  apply d_pop_sim in Hp.
  destruct (i_q_ge _ _ _ _ Hinv d n) as (bn & Hbn & Hle).
  { apply (is_pop_elem _ _ _ _ _ Hp). by left. }
  pose proof (pop_fresh _ _ _ _ _ _ _ _ _ Hinv Hp Hv Hbn) as Hd.
  exists bn. split; [done |]. split; [by symmetry |].
  destruct (ltb (Fin bn) (Fin d)) eqn:El; [| done].
  apply ext_ltb_nle in El. simpl in El. exfalso. apply El. lra.
Qed.

Lemma stale_test_never_fires_witness :
  ∃ dn, distances (dijkstra_init (nodes diamond) "A") !! "A" = Some (Fin dn) ∧
        dn == 0 ∧ ltb (Fin dn) (Fin 0) = false.
Proof.
  apply (stale_test_never_fires diamond "A" "D" (dijkstra_init (nodes diamond) "A")
           0 "A" []).
  - in_dom.
  - apply d_reach_init.
  - vm_compute. reflexivity.
  - in_dom.
Defined.

(** X19: in every state that the loop of [dijkstra] or of [astar] is in at
    the top of a turn, whatever the weights, the queue holds at most one
    entry more than the graph has stored edges, and the visited set at most
    as many keys as the graph has nodes. *)
Theorem queue_stays_small g s e :
  s ∈ dom (nodes g) →
  (∀ st, d_reach g e (dijkstra_init (nodes g) s) st →
     (length (d_pq st) ≤ edge_count g + 1)%nat ∧
     (size (d_visited st) ≤ size (nodes g))%nat) ∧
  (∀ st, a_reach g e (astar_init (nodes g) s (distance_of g s e) (distance_of g s e)) st →
     (length (a_pq st) ≤ edge_count g + 1)%nat ∧
     (size (a_visited st) ≤ size (nodes g))%nat).
Proof.
  intros Hs. split.
  - intros st Hr. destruct (d_reach_basic g s e st Hs Hr) as [[Hinv _] Hm].
    split.
    + unfold measure in Hm. simpl in Hm. lia.
    + rewrite <- size_dom. apply subseteq_size. intros k Hk.
      by apply (inv0_vis_dom g s e (dview st)).
  - intros st Hr. destruct (a_reach_basic g s e st Hs Hr) as ([Hinv _] & _ & Hm).
    split.
    + unfold measure in Hm. simpl in Hm. rewrite length_map in Hm. lia.
    + rewrite <- size_dom. apply subseteq_size. intros k Hk.
      by apply (inv0_vis_dom g s e (aview st)).
Qed.

Lemma queue_stays_small_witness :
  (∀ st, d_reach diamond "D" (dijkstra_init (nodes diamond) "A") st →
     (length (d_pq st) ≤ edge_count diamond + 1)%nat ∧
     (size (d_visited st) ≤ size (nodes diamond))%nat) ∧
  (∀ st, a_reach diamond "D"
           (astar_init (nodes diamond) "A" (distance_of diamond "A" "D")
              (distance_of diamond "A" "D")) st →
     (length (a_pq st) ≤ edge_count diamond + 1)%nat ∧
     (size (a_visited st) ≤ size (nodes diamond))%nat).
Proof. apply (queue_stays_small diamond "A" "D"). in_dom. Defined.
